(** * WHENCE manifest parser and YAML dump: a shallow embedding

    The development follows [contrib/pylib/whence.py]: the helper [strip],
    the data classes [Entry], [Section] and [Whence], the line-by-line state
    machine of [Whence.load_whence] and the dictionary pruning of
    [Whence.save_yaml].

    Python strings are modelled as [string]; a character is a code point
    below 256.  Python exceptions are modelled by the error type [exn] and
    the error monad [result]. *)

From Stdlib Require Import List String Ascii Bool Arith Lia.
Import ListNotations.
Open Scope string_scope.
Open Scope list_scope.

(** String concatenation, written apart from list concatenation. *)
Infix "+++" := String.append (right associativity, at level 60).

(** ** Exceptions and the error monad *)

(** The exceptions the two methods can raise: the explicit
    [Exception(f"Failed to parse line: {line}")] of [load_whence], the
    [UnboundLocalError] of reading the locals [section] or [entry] before
    they are assigned, the [IndexError] of [obj[0]] / [obj[-1]] on an empty
    list, the [KeyError] of a missing dictionary key and the [TypeError] of
    using a value as a dictionary or a list when it is neither. *)
Inductive exn : Type :=
| FailedToParseLine (line : string)
| UnboundLocalError (name : string)
| IndexError
| KeyError (key : string)
| TypeError.

Inductive result (A : Type) : Type :=
| Raise (e : exn)
| Ok (a : A).

Arguments Raise {A} e.
Arguments Ok {A} a.

Definition bind {A B : Type} (m : result A) (k : A -> result B) : result B :=
  match m with
  | Raise e => Raise e
  | Ok a => k a
  end.

Notation "x <- m ;; k" := (bind m (fun x => k))
  (at level 61, m at next level, right associativity).

Definition fmap {A B : Type} (f : A -> B) (m : result A) : result B :=
  x <- m ;; Ok (f x).

Fixpoint mapM {A B : Type} (f : A -> result B) (l : list A) : result (list B) :=
  match l with
  | [] => Ok []
  | x :: r => y <- f x ;; ys <- mapM f r ;; Ok (y :: ys)
  end.

(** ** Python string methods *)

Module Str.

Definition nonempty (s : string) : bool :=
  match s with EmptyString => false | String _ _ => true end.

(** [str.isspace] on one character, for code points below 256:
    U+0009..U+000D, U+001C..U+0020, U+0085 and U+00A0. *)
Definition isspace (c : ascii) : bool :=
  let n := nat_of_ascii c in
  ((9 <=? n)%nat && (n <=? 13)%nat) || ((28 <=? n)%nat && (n <=? 32)%nat)
  || (n =? 133)%nat || (n =? 160)%nat.

(** Membership of a character in the argument of [s.strip(chars)]. *)
Fixpoint mem (c : ascii) (chars : string) : bool :=
  match chars with
  | EmptyString => false
  | String d r => Ascii.eqb c d || mem c r
  end.

Fixpoint lstrip_by (p : ascii -> bool) (s : string) : string :=
  match s with
  | EmptyString => EmptyString
  | String c r => if p c then lstrip_by p r else s
  end.

Fixpoint rstrip_by (p : ascii -> bool) (s : string) : string :=
  match s with
  | EmptyString => EmptyString
  | String c r =>
      match rstrip_by p r with
      | EmptyString => if p c then EmptyString else String c EmptyString
      | r' => String c r'
      end
  end.

Definition strip_by (p : ascii -> bool) (s : string) : string :=
  rstrip_by p (lstrip_by p s).

(** [s.rstrip()] and [s.strip()] *)
Definition rstrip (s : string) : string := rstrip_by isspace s.
Definition strip (s : string) : string := strip_by isspace s.

(** [s.strip(chars)] *)
Definition strip_chars (chars s : string) : string :=
  strip_by (fun c => mem c chars) s.

(** [s.startswith(p)] *)
Definition startswith (p s : string) : bool := prefix p s.

Fixpoint drop (n : nat) (s : string) : string :=
  match n, s with
  | O, _ => s
  | S _, EmptyString => EmptyString
  | S m, String _ r => drop m r
  end.

(** The first occurrence of the non-empty separator [sep] in [s]: the
    text before it and the text after it.  It serves [sep in s],
    [s.split(sep, 1)] and [s.partition(sep)]. *)
Fixpoint find_split (sep s : string) : option (string * string) :=
  if prefix sep s then Some (EmptyString, drop (String.length sep) s)
  else
    match s with
    | EmptyString => None
    | String c r =>
        match find_split sep r with
        | Some (a, b) => Some (String c a, b)
        | None => None
        end
    end.

(** [sep in s] *)
Definition contains (sep s : string) : bool :=
  match find_split sep s with Some _ => true | None => false end.

(** [s.partition(sep)], without the middle component *)
Definition partition (sep s : string) : string * string :=
  match find_split sep s with
  | Some (a, b) => (a, b)
  | None => (s, EmptyString)
  end.

End Str.

(** ** The regular expression of the licence recognizer

    [re.search(r"(LICEN[CS]E\.[^ ]+) for details", line)]: the leftmost
    position at which the pattern matches, the class [[^ ]+] being greedy
    with backtracking; the result is group 1. *)

Module Re.

Definition tail_lit : string := " for details".

(** [[^ ]+ for details] at the start of [s]: the text matched by the
    character class.  The longer match is tried first. *)
Fixpoint nonspace_plus (s : string) : option string :=
  match s with
  | EmptyString => None
  | String c r =>
      if Ascii.eqb c " " then None
      else
        match nonspace_plus r with
        | Some m => Some (String c m)
        | None =>
            if prefix tail_lit r then Some (String c EmptyString) else None
        end
  end.

(** [LICEN[CS]E\.] at the start of [s]: the matched text and the rest. *)
Definition head_lit (s : string) : option (string * string) :=
  if prefix "LICEN" s then
    match Str.drop 5 s with
    | String c (String e (String d r)) =>
        if (Ascii.eqb c "C" || Ascii.eqb c "S")
           && Ascii.eqb e "E" && Ascii.eqb d "."
        then Some ("LICEN" +++ String c "E.", r)
        else None
    | _ => None
    end
  else None.

(** The whole pattern anchored at the start of [s]: group 1. *)
Definition match_here (s : string) : option string :=
  match head_lit s with
  | Some (h, r) =>
      match nonspace_plus r with
      | Some m => Some (h +++ m)
      | None => None
      end
  | None => None
  end.

Fixpoint search (s : string) : option string :=
  match match_here s with
  | Some g => Some g
  | None =>
      match s with
      | EmptyString => None
      | String _ r => search r
      end
  end.

End Re.

(** ** The helper [strip]

    [[
    def strip(obj: list) -> list:
        if obj:
            while obj[0] == "":
                obj = obj[1:]
            while obj[-1] == "":
                obj = obj[:-1]
        return obj
    ]]
    Neither loop tests that [obj] is still non-empty: [obj[0]] and
    [obj[-1]] raise [IndexError] on the empty list. *)

(** [while obj[0] == "": obj = obj[1:]] *)
Fixpoint strip_leading (obj : list string) : result (list string) :=
  match obj with
  | [] => Raise IndexError
  | x :: r => if String.eqb x "" then strip_leading r else Ok obj
  end.

(** [obj[-1]] *)
Definition last_item (obj : list string) : result string :=
  match obj with
  | [] => Raise IndexError
  | x :: r => Ok (last r x)
  end.

(** [while obj[-1] == "": obj = obj[:-1]], by fuel: every turn shortens
    [obj], so [S (length obj)] turns are enough ([strip_trailing_fuel]). *)
Fixpoint strip_trailing (fuel : nat) (obj : list string)
  : option (result (list string)) :=
  match fuel with
  | O => None
  | S fuel' =>
      match last_item obj with
      | Raise e => Some (Raise e)
      | Ok x =>
          if String.eqb x "" then strip_trailing fuel' (removelast obj)
          else Some (Ok obj)
      end
  end.

Definition strip (obj : list string) : result (list string) :=
  match obj with
  | [] => Ok obj
  | _ :: _ =>
      obj1 <- strip_leading obj ;;
      match strip_trailing (S (List.length obj1)) obj1 with
      | Some r => r
      | None => Ok obj1
      end
  end.

(** ** Data classes *)

Record Entry : Type := mkEntry {
  type : string;
  path : string;
  target : string;
  sources : list string;
  version : string;
  info : string;
  origin : string
}.

(** [Entry(type=t, path=p, target=g)] with the other fields at their
    defaults *)
Definition new_Entry (t p g : string) : Entry :=
  mkEntry t p g [] "" "" "".

(** The data class [Section] of the source. *)
Record DriverSection : Type := mkSection {
  driver : string;
  module : string;
  description : string;
  licence : list string;
  licence_file : string;
  notes : list string;
  entries : list Entry
}.

Definition new_Section : DriverSection := mkSection "" "" "" [] "" [] [].

Record Whence : Type := mkWhence {
  header : list string;
  sections : list DriverSection
}.

Definition new_Whence : Whence := mkWhence [] [].

(** Attribute assignments *)

Definition set_version (v : string) (e : Entry) : Entry :=
  mkEntry (type e) (path e) (target e) (sources e) v (info e) (origin e).
Definition set_info (v : string) (e : Entry) : Entry :=
  mkEntry (type e) (path e) (target e) (sources e) (version e) v (origin e).
Definition set_origin (v : string) (e : Entry) : Entry :=
  mkEntry (type e) (path e) (target e) (sources e) (version e) (info e) v.
Definition append_source (v : string) (e : Entry) : Entry :=
  mkEntry (type e) (path e) (target e) (sources e ++ [v]) (version e)
          (info e) (origin e).

Definition set_driver (d m desc : string) (s : DriverSection) : DriverSection :=
  mkSection d m desc (licence s) (licence_file s) (notes s) (entries s).
Definition set_licence (l : list string) (s : DriverSection) : DriverSection :=
  mkSection (driver s) (module s) (description s) l (licence_file s)
            (notes s) (entries s).
Definition set_licence_file (f : string) (s : DriverSection) : DriverSection :=
  mkSection (driver s) (module s) (description s) (licence s) f
            (notes s) (entries s).
Definition set_notes (n : list string) (s : DriverSection) : DriverSection :=
  mkSection (driver s) (module s) (description s) (licence s)
            (licence_file s) n (entries s).
Definition set_entries (es : list Entry) (s : DriverSection) : DriverSection :=
  mkSection (driver s) (module s) (description s) (licence s)
            (licence_file s) (notes s) es.

(** ** [Whence.load_whence]

    The state of the loop: the two attributes of [self], the local
    [whence_type], and the local [entry].

    The local [section] is not stored.  [self.sections] is emptied when the
    method starts, and the only assignment [section = Section()] is followed
    at once by [self.sections.append(section)]: [section] is unbound exactly
    when [self.sections] is empty, and is its last item otherwise.

    The local [entry] is a reference to an [Entry] object that sits in the
    [entries] list of the section it was appended to, which need not be the
    current one.  It is stored as the position of that object: the index of
    the section and the index inside its [entries]; [None] is the unbound
    local. *)

Inductive WhenceType : Type := HEADER | SECTION | NOTES | LICENCE.

Definition WhenceType_eqb (a b : WhenceType) : bool :=
  match a, b with
  | HEADER, HEADER | SECTION, SECTION | NOTES, NOTES | LICENCE, LICENCE => true
  | _, _ => false
  end.

Record Locals : Type := mkLocals {
  self_header : list string;
  self_sections : list DriverSection;
  whence_type : WhenceType;
  entry : option (nat * nat)
}.

Definition set_whence_type (t : WhenceType) (st : Locals) : Locals :=
  mkLocals (self_header st) (self_sections st) t (entry st).

(** In-place update of the item at index [i].  An index out of range
    changes nothing; the reference of [entry] never is one
    ([process_line_bound]). *)
Fixpoint update_at {A : Type} (i : nat) (f : A -> A) (l : list A) : list A :=
  match l, i with
  | [], _ => []
  | x :: r, O => f x :: r
  | x :: r, S j => x :: update_at j f r
  end.

(** In-place update of the last item. *)
Fixpoint update_last {A : Type} (f : A -> A) (l : list A) : list A :=
  match l with
  | [] => []
  | [x] => [f x]
  | x :: r => x :: update_last f r
  end.

(** A statement that mutates the object bound to [section]. *)
Definition modify_section (f : DriverSection -> DriverSection) (st : Locals)
  : result Locals :=
  match self_sections st with
  | [] => Raise (UnboundLocalError "section")
  | ss => Ok (mkLocals (self_header st) (update_last f ss)
                       (whence_type st) (entry st))
  end.

(** A statement that mutates the object bound to [entry]. *)
Definition modify_entry (f : Entry -> Entry) (st : Locals) : result Locals :=
  match entry st with
  | None => Raise (UnboundLocalError "entry")
  | Some (i, j) =>
      Ok (mkLocals (self_header st)
            (update_at i (fun s => set_entries (update_at j f (entries s)) s)
                       (self_sections st))
            (whence_type st) (entry st))
  end.

(** [entry = e; section.entries.append(entry)] *)
Definition append_entry (e : Entry) (st : Locals) : result Locals :=
  match self_sections st with
  | [] => Raise (UnboundLocalError "section")
  | s0 :: r =>
      let ss := s0 :: r in
      Ok (mkLocals (self_header st)
            (update_last (fun s => set_entries (entries s ++ [e]) s) ss)
            (whence_type st)
            (Some (List.length r, List.length (entries (last r s0)))))
  end.

(** Lines 80-85: [key] and [val], or [None] for both. *)
Definition split_key (line : string) : option (string * string) :=
  match Str.find_split ":" line with
  | Some (key, val) => Some (key, Str.strip val)
  | None => None
  end.

(** Line 87 *)
Definition is_delimiter (line : string) : bool :=
  Str.startswith "----------" line.

(** Lines 88-91 *)
Definition start_section (st : Locals) : Locals :=
  mkLocals (self_header st) (self_sections st ++ [new_Section])
           SECTION (entry st).

(** Lines 95-100: [module] and [desc] *)
Definition split_driver (val : string) : string * string :=
  match Str.find_split " " val with
  | Some (m, desc) => (m, Str.strip_chars " -" desc)
  | None => (val, "")
  end.

(** Lines 94-102 *)
Definition on_driver (val : string) (st : Locals) : result Locals :=
  modify_section
    (fun s => set_driver val (fst (split_driver val)) (snd (split_driver val)) s)
    st.

(** Lines 106-107 *)
Definition on_file (key val : string) (st : Locals) : result Locals :=
  append_entry (new_Entry key val "") st.

(** Lines 115-117 *)
Definition on_link (key val : string) (st : Locals) : result Locals :=
  let '(p, t) := Str.partition " -> " val in
  append_entry (new_Entry key p t) st.

(** Lines 133-137 *)
Definition on_licence (val line : string) (st : Locals) : result Locals :=
  modify_section
    (fun s =>
       let s1 := set_licence
                   (licence s ++ [if Str.nonempty val then val else "--"]) s in
       match Re.search line with
       | Some g => set_licence_file g s1
       | None => s1
       end)
    (set_whence_type LICENCE st).

(** Lines 93-138: the keyed-field recognizers, in the order of the source.
    [None] when no recognizer matches, so that the line falls through to the
    free-text handling. *)
Definition recognizer (key val line : string) (st : Locals)
  : option (result Locals) :=
  if String.eqb key "Driver" then Some (on_driver val st)
  else if String.eqb key "File" || String.eqb key "RawFile"
       then Some (on_file key val st)
  else if String.eqb key "Version"
       then Some (modify_entry (set_version val) st)
  else if String.eqb key "Link" then Some (on_link key val st)
  else if String.eqb key "Source"
       then Some (modify_entry (append_source val) st)
  else if String.eqb key "Info" then Some (modify_entry (set_info val) st)
  else if String.eqb key "Origin" then Some (modify_entry (set_origin val) st)
  else if String.eqb key "Licence" || String.eqb key "License"
       then Some (on_licence val line st)
  else None.

(** Lines 140-154: the free-text handling *)
Definition free_text (line : string) (st : Locals) : result Locals :=
  if WhenceType_eqb (whence_type st) HEADER then
    Ok (mkLocals (self_header st ++ [line]) (self_sections st)
                 (whence_type st) (entry st))
  else if WhenceType_eqb (whence_type st) NOTES
          || (WhenceType_eqb (whence_type st) SECTION && Str.nonempty line)
  then
    modify_section (fun s => set_notes (notes s ++ [line]) s)
                   (set_whence_type NOTES st)
  else if WhenceType_eqb (whence_type st) LICENCE then
    modify_section (fun s => set_licence (licence s ++ [line]) s) st
  else if Str.nonempty line then Raise (FailedToParseLine line)
  else Ok st.

(** The body of the loop after [line = line.rstrip()]. *)
Definition process_line (st : Locals) (line : string) : result Locals :=
  if is_delimiter line then Ok (start_section st)
  else
    match split_key line with
    | Some (key, val) =>
        match recognizer key val line st with
        | Some r => r
        | None => free_text line st
        end
    | None => free_text line st
    end.

(** [for line in fh: line = line.rstrip(); ...] *)
Fixpoint run (st : Locals) (lines : list string) : result Locals :=
  match lines with
  | [] => Ok st
  | raw :: rest => st' <- process_line st (Str.rstrip raw) ;; run st' rest
  end.

(** Lines 159-160 *)
Definition strip_section (s : DriverSection) : result DriverSection :=
  l <- strip (licence s) ;;
  n <- strip (notes s) ;;
  Ok (set_notes n (set_licence l s)).

(** The state in which the loop starts: [self.sections = []],
    [whence_type = HEADER], [self.header] as the object has it. *)
Definition init_locals (self : Whence) : Locals :=
  mkLocals (header self) [] HEADER None.

(** The end-of-line character that ends the lines of a text file *)
Definition newline : string := String "010"%char EmptyString.

(** [self.load_whence(whence_file)], the file given as the lines that the
    iteration over it yields.  The lines may be given with or without
    their end-of-line character, which [rstrip] removes ([run_newlines]). *)
Definition load_whence (self : Whence) (lines : list string) : result Whence :=
  st <- run (init_locals self) lines ;;
  h <- strip (self_header st) ;;
  ss <- mapM strip_section (self_sections st) ;;
  Ok (mkWhence h ss).

(** ** [Whence.save_yaml]

    [asdict(self)] is a dictionary of strings, lists and dictionaries.  A
    dictionary keeps the insertion order of its keys, which is the order in
    which [yaml.dump] emits them: it is modelled as an association list.
    The embedding stops at the dictionary handed to [yaml.dump]. *)

#[warnings="-register-all"]
Inductive value : Type :=
| VStr (s : string)
| VList (l : list value)
| VDict (d : list (string * value)).

Definition dict : Type := list (string * value).

(** The truth value of [v]: [not v] holds for the empty string, the empty
    list and the empty dictionary. *)
Definition truthy (v : value) : bool :=
  match v with
  | VStr s => Str.nonempty s
  | VList l => match l with [] => false | _ :: _ => true end
  | VDict d => match d with [] => false | _ :: _ => true end
  end.

(** [d[key]] *)
Fixpoint getitem (key : string) (d : dict) : result value :=
  match d with
  | [] => Raise (KeyError key)
  | (k, v) :: r => if String.eqb k key then Ok v else getitem key r
  end.

(** [d[key] = v] for a key that [d] may have *)
Fixpoint setitem (key : string) (v : value) (d : dict) : dict :=
  match d with
  | [] => [(key, v)]
  | (k, w) :: r =>
      if String.eqb k key then (k, v) :: r else (k, w) :: setitem key v r
  end.

Definition strs (l : list string) : value := VList (map VStr l).

Definition asdict_Entry (e : Entry) : dict :=
  [ ("type", VStr (type e)); ("path", VStr (path e));
    ("target", VStr (target e)); ("sources", strs (sources e));
    ("version", VStr (version e)); ("info", VStr (info e));
    ("origin", VStr (origin e)) ].

Definition asdict_Section (s : DriverSection) : dict :=
  [ ("driver", VStr (driver s)); ("module", VStr (module s));
    ("description", VStr (description s)); ("licence", strs (licence s));
    ("licence_file", VStr (licence_file s)); ("notes", strs (notes s));
    ("entries", VList (map (fun e => VDict (asdict_Entry e)) (entries s))) ].

Definition asdict (w : Whence) : dict :=
  [ ("header", strs (header w));
    ("sections", VList (map (fun s => VDict (asdict_Section s)) (sections w))) ].

(** [for key in list(d): if not d[key]: del d[key]] *)
Definition remove_empty_keys (d : dict) : dict :=
  filter (fun kv => truthy (snd kv)) d.

Definition as_dict (v : value) : result dict :=
  match v with VDict d => Ok d | _ => Raise TypeError end.

Definition as_list (v : value) : result (list value) :=
  match v with VList l => Ok l | _ => Raise TypeError end.

(** Lines 173-175, for one [e] *)
Definition prune_entry (e : value) : result value :=
  d <- as_dict e ;; Ok (VDict (remove_empty_keys d)).

(** Lines 169-175, for one [s]: the keys of [s] are pruned first, and
    [s["entries"]] is read from the pruned dictionary. *)
Definition prune_section (s : value) : result value :=
  d <- as_dict s ;;
  let d' := remove_empty_keys d in
  es <- getitem "entries" d' ;;
  l <- as_list es ;;
  l' <- mapM prune_entry l ;;
  Ok (VDict (setitem "entries" (VList l') d')).

(** The dictionary that [save_yaml] hands to [yaml.dump]. *)
Definition save_yaml (self : Whence) (remove_empty : bool) : result dict :=
  let d := asdict self in
  if remove_empty then
    ss <- getitem "sections" d ;;
    l <- as_list ss ;;
    l' <- mapM prune_section l ;;
    Ok (setitem "sections" (VList l') d)
  else Ok d.

(** ** The script [contrib/whence2yaml.py]

    [[
    whence = Whence()
    whence.load_whence("WHENCE")
    whence.save_yaml("WHENCE.yaml", remove_empty=True)
    ]]
    The file [WHENCE] is given as its lines; the result is the dictionary
    that is dumped to [WHENCE.yaml], or the exception that ends the
    script. *)
Definition whence2yaml (lines : list string) : result dict :=
  whence <- load_whence new_Whence lines ;;
  save_yaml whence true.

(** ** Vocabulary of the properties *)

(** Characters of a string *)
Fixpoint all_chars (p : ascii -> bool) (s : string) : bool :=
  match s with
  | EmptyString => true
  | String c r => p c && all_chars p r
  end.

(** The first and the last character of [s], if any, do not satisfy [p]. *)
Definition clean_ends (p : ascii -> bool) (s : string) : Prop :=
  (forall c r, s = String c r -> p c = false) /\
  (forall a c, s = a +++ String c "" -> p c = false).

(** A list of empty strings only *)
Definition all_blank (l : list string) : Prop := Forall (fun x => x = "") l.

(** The first and the last item of [l], if any, are not empty. *)
Definition no_blank_ends (l : list string) : Prop :=
  forall x r, l = x :: r -> x <> "" /\ last r x <> "".

(** [post] is [pre] without a run of empty strings at each end. *)
Definition trimmed_from (pre post : list string) : Prop :=
  exists a b, pre = repeat "" a ++ post ++ repeat "" b.

(** The keys of the recognizers *)
Definition recognized_keys : list string :=
  ["Driver"; "File"; "RawFile"; "Version"; "Link"; "Source"; "Info";
   "Origin"; "Licence"; "License"].

Definition is_recognized (key : string) : bool :=
  existsb (String.eqb key) recognized_keys.

(** Keys of the licence recognizer *)
Definition is_licence_key (key : string) : bool :=
  String.eqb key "Licence" || String.eqb key "License".

(** Keys of the lines that make an [Entry] *)
Definition is_entry_key (key : string) : bool :=
  String.eqb key "File" || String.eqb key "RawFile" || String.eqb key "Link".

(** Keys of the lines that assign to the current [Entry] *)
Definition is_entry_field_key (key : string) : bool :=
  String.eqb key "Version" || String.eqb key "Source"
  || String.eqb key "Info" || String.eqb key "Origin".

(** The key of a line that is not a section delimiter *)
Definition line_key (line : string) : option string :=
  if is_delimiter line then None
  else match split_key line with
       | Some (key, _) => Some key
       | None => None
       end.

(** The line has a key, and the key passes the test [p]. *)
Definition key_test (p : string -> bool) (line : string) : bool :=
  match line_key line with Some key => p key | None => false end.

(** The loop body reaches line 154 with a non-empty line: no rule took the
    line, and the state is none of those with a free-text branch. *)
Definition unattributable (t : WhenceType) (line : string) : bool :=
  negb (is_delimiter line) && negb (key_test is_recognized line)
  && negb (WhenceType_eqb t HEADER)
  && negb (WhenceType_eqb t NOTES
           || (WhenceType_eqb t SECTION && Str.nonempty line))
  && negb (WhenceType_eqb t LICENCE)
  && Str.nonempty line.

(** The exception is an unbound local *)
Definition unbound (e : exn) : Prop := exists name, e = UnboundLocalError name.

(** The local [entry], when it is bound, is the position of an entry of the
    document. *)
Definition entry_bound (st : Locals) : Prop :=
  match entry st with
  | None => True
  | Some (i, j) =>
      exists s, nth_error (self_sections st) i = Some s
                /\ j < List.length (entries s)
  end.

(** Every section of [ss] is in [ss'] at its place, with as many entries
    or more. *)
Definition grows (ss ss' : list DriverSection) : Prop :=
  forall i s, nth_error ss i = Some s ->
              exists s', nth_error ss' i = Some s'
                         /\ List.length (entries s) <= List.length (entries s').

(** [s'] is [s] after lines 159-160. *)
Definition stripped_section (s s' : DriverSection) : Prop :=
  driver s' = driver s /\ module s' = module s
  /\ description s' = description s /\ licence_file s' = licence_file s
  /\ entries s' = entries s
  /\ trimmed_from (licence s) (licence s') /\ no_blank_ends (licence s')
  /\ trimmed_from (notes s) (notes s') /\ no_blank_ends (notes s').

(** Every line before the first section delimiter is blank. *)
Fixpoint blank_header (lines : list string) : bool :=
  match lines with
  | [] => true
  | raw :: rest =>
      if is_delimiter (Str.rstrip raw) then true
      else String.eqb (Str.rstrip raw) "" && blank_header rest
  end.

(** ... and there is at least one such line. *)
Definition blank_header_manifest (lines : list string) : bool :=
  match lines with
  | [] => false
  | raw :: _ => negb (is_delimiter (Str.rstrip raw)) && blank_header lines
  end.

(** The split of the value of a [Driver:] line in the words of the
    specification: the value is split on its first whitespace run into the
    token before it and the remainder, from which the leading [" "] and
    ["-"] characters are trimmed; without whitespace the module is the whole
    value and the description is empty. *)
Module Spec.

(** The text before the first whitespace character, and the text from
    that character on *)
Fixpoint break_space (s : string) : string * string :=
  match s with
  | EmptyString => (EmptyString, EmptyString)
  | String c r =>
      if Str.isspace c then (EmptyString, s)
      else let '(a, b) := break_space r in (String c a, b)
  end.

Definition split_driver (val : string) : string * string :=
  let '(m, rest) := break_space val in
  match rest with
  | EmptyString => (val, EmptyString)
  | String _ _ =>
      (m, Str.lstrip_by (fun c => Str.mem c " -")
            (Str.lstrip_by Str.isspace rest))
  end.

End Spec.

(** No character of [s] is a space. *)
Definition no_space (s : string) : bool :=
  all_chars (fun c => negb (Ascii.eqb c " ")) s.

(** [g] is a file name of the pattern: [LICENCE.] or [LICENSE.] and a
    non-empty suffix without a space. *)
Definition licence_file_name (g : string) : Prop :=
  exists c suf,
    g = "LICEN" +++ String c "E." +++ suf
    /\ (c = "C"%char \/ c = "S"%char)
    /\ suf <> "" /\ no_space suf = true.

(** The lines of a manifest, trimmed at the right, by section: the lines
    before the first delimiter, and for every delimiter the lines that
    follow it up to the next one. *)
Fixpoint section_lines (lines : list string)
  : list string * list (list string) :=
  match lines with
  | [] => ([], [])
  | raw :: rest =>
      let '(h, cs) := section_lines rest in
      if is_delimiter (Str.rstrip raw) then ([], h :: cs)
      else (Str.rstrip raw :: h, cs)
  end.

(** The [File:], [RawFile:] and [Link:] lines among [chunk] *)
Definition entry_lines (chunk : list string) : list string :=
  filter (key_test is_entry_key) chunk.

(** What identifies an entry: its type, path and target *)
Definition entry_id (e : Entry) : string * string * string :=
  (type e, path e, target e).

(** The type, path and target that an entry line gives *)
Definition line_entry_id (line : string) : string * string * string :=
  match split_key line with
  | Some (key, val) =>
      if String.eqb key "Link"
      then (key, fst (Str.partition " -> " val),
            snd (Str.partition " -> " val))
      else (key, val, "")
  | None => ("", "", "")
  end.

Definition section_ids (ss : list DriverSection)
  : list (list (string * string * string)) :=
  map (fun s => map entry_id (entries s)) ss.

Definition chunk_ids (chunk : list string) : list (string * string * string) :=
  map line_entry_id (entry_lines chunk).

(** An entry and a section after lines 169-175 *)
Definition pruned_Entry (e : Entry) : value :=
  VDict (remove_empty_keys (asdict_Entry e)).

Definition pruned_Section (s : DriverSection) : value :=
  VDict (setitem "entries" (VList (map pruned_Entry (entries s)))
                 (remove_empty_keys (asdict_Section s))).

(** No value of the dictionary is empty. *)
Definition all_truthy (d : dict) : bool :=
  forallb (fun kv => truthy (snd kv)) d.

Definition value_all_truthy (v : value) : bool :=
  match v with VDict d => all_truthy d | _ => false end.

(** The list is empty or begins with a non-empty string. *)
Definition head_nonempty (l : list string) : Prop :=
  match l with
  | [] => True
  | x :: _ => x <> ""
  end.

(** What the loop keeps true of the notes and licence lists: none begins
    with an empty line, and the list that the state names is not empty. *)
Definition lists_invariant (st : Locals) : Prop :=
  Forall head_nonempty (map notes (self_sections st))
  /\ Forall head_nonempty (map licence (self_sections st))
  /\ (whence_type st = NOTES -> last (map notes (self_sections st)) [] <> [])
  /\ (whence_type st = LICENCE ->
      last (map licence (self_sections st)) [] <> []).

(** The lines without the empty ones at their front *)
Fixpoint skip_blank (l : list string) : list string :=
  match l with
  | [] => []
  | x :: r => if String.eqb x "" then skip_blank r else l
  end.

(** The line is free text: no delimiter, and no recognized key. *)
Definition is_free_text (line : string) : bool :=
  negb (is_delimiter line) && negb (key_test is_recognized line).

(** The assignment that the recognizer of an entry field makes: lines 111,
    121, 125 and 129. *)
Definition field_setter (key : string) : option (string -> Entry -> Entry) :=
  if String.eqb key "Version" then Some set_version
  else if String.eqb key "Source" then Some append_source
  else if String.eqb key "Info" then Some set_info
  else if String.eqb key "Origin" then Some set_origin
  else None.

(** Reading a dumped dictionary, a missing key standing for the empty
    value: the strings, the lists of strings, the entries, the sections and
    the document. *)
Definition str_of (v : value) : string :=
  match v with VStr s => s | _ => "" end.

Definition strs_of (v : value) : list string :=
  match v with VList l => map str_of l | _ => [] end.

Definition field (key : string) (d : dict) : value :=
  match getitem key d with Ok v => v | Raise _ => VStr "" end.

Definition read_Entry (d : dict) : Entry :=
  mkEntry (str_of (field "type" d)) (str_of (field "path" d))
          (str_of (field "target" d)) (strs_of (field "sources" d))
          (str_of (field "version" d)) (str_of (field "info" d))
          (str_of (field "origin" d)).

Definition dict_of (v : value) : dict :=
  match v with VDict d => d | _ => [] end.

Definition read_entries (v : value) : list Entry :=
  match v with
  | VList l => map (fun x => read_Entry (dict_of x)) l
  | _ => []
  end.

Definition read_Section (d : dict) : DriverSection :=
  mkSection (str_of (field "driver" d)) (str_of (field "module" d))
            (str_of (field "description" d)) (strs_of (field "licence" d))
            (str_of (field "licence_file" d)) (strs_of (field "notes" d))
            (read_entries (field "entries" d)).

Definition read_sections (v : value) : list DriverSection :=
  match v with
  | VList l => map (fun x => read_Section (dict_of x)) l
  | _ => []
  end.

Definition read_Whence (d : dict) : Whence :=
  mkWhence (strs_of (field "header" d)) (read_sections (field "sections" d)).

(** [l1] is [l2] without some of its items, the others in their order. *)
Inductive subsequence {A : Type} : list A -> list A -> Prop :=
| subsequence_nil : subsequence [] []
| subsequence_skip x l1 l2 : subsequence l1 l2 -> subsequence l1 (x :: l2)
| subsequence_keep x l1 l2 :
    subsequence l1 l2 -> subsequence (x :: l1) (x :: l2).

(** The fields of the data classes, in the order of their declaration *)
Definition Entry_fields : list string :=
  ["type"; "path"; "target"; "sources"; "version"; "info"; "origin"].

Definition Section_fields : list string :=
  ["driver"; "module"; "description"; "licence"; "licence_file"; "notes";
   "entries"].

(** * Properties *)

(** ** Strings *)

Section StringFacts.

Lemma str_app_nil_r (s : string) : s +++ "" = s.
Proof. induction s as [|c r IH]; simpl; [reflexivity | now rewrite IH]. Qed.

Lemma str_app_assoc (a b c : string) : (a +++ b) +++ c = a +++ b +++ c.
Proof. induction a as [|x r IH]; simpl; [reflexivity | now rewrite IH]. Qed.

Lemma str_app_length (a b : string) :
  String.length (a +++ b) = String.length a + String.length b.
Proof. induction a as [|x r IH]; simpl; [reflexivity | now rewrite IH]. Qed.

Lemma str_app_eq_nil (a b : string) : a +++ b = "" -> a = "" /\ b = "".
Proof. destruct a; simpl; [auto | discriminate]. Qed.

Lemma drop_app (p r : string) : Str.drop (String.length p) (p +++ r) = r.
Proof. induction p as [|x q IH]; simpl; [reflexivity | exact IH]. Qed.

Lemma prefix_app (p r : string) : prefix p (p +++ r) = true.
Proof.
  induction p as [|x q IH]; simpl.
  - now destruct r.
  - destruct (ascii_dec x x) as [_|N]; [exact IH | now elim N].
Qed.

Lemma prefix_inv (p s : string) :
  prefix p s = true -> s = p +++ Str.drop (String.length p) s.
Proof.
  revert s; induction p as [|x q IH]; intros s H; simpl.
  - reflexivity.
  - destruct s as [|y r]; simpl in H; [discriminate|].
    destruct (ascii_dec x y) as [->|_]; [|discriminate].
    now rewrite <- IH.
Qed.

Lemma prefix_iff (p s : string) :
  prefix p s = true <-> exists r, s = p +++ r.
Proof.
  split.
  - intros H; eexists; now apply prefix_inv.
  - intros [r ->]; apply prefix_app.
Qed.

Lemma find_split_eq (sep s : string) :
  Str.find_split sep s =
  if prefix sep s then Some ("", Str.drop (String.length sep) s)
  else match s with
       | "" => None
       | String c r =>
           match Str.find_split sep r with
           | Some (a, b) => Some (String c a, b)
           | None => None
           end
       end.
Proof. destruct s; reflexivity. Qed.

(** [find_split] returns an occurrence of the separator ... *)
Lemma find_split_sound (sep s a b : string) :
  Str.find_split sep s = Some (a, b) -> s = a +++ sep +++ b.
Proof.
  revert a b; induction s as [|c r IH]; intros a b H;
    rewrite find_split_eq in H.
  - destruct (prefix sep "") eqn:P; [|discriminate].
    injection H as <- <-; simpl; now apply prefix_inv.
  - destruct (prefix sep (String c r)) eqn:P.
    + injection H as <- <-; simpl; now apply prefix_inv.
    + destruct (Str.find_split sep r) as [[a' b']|]; [|discriminate].
      injection H as <- <-; simpl; f_equal; now apply IH.
Qed.

(** ... the leftmost one ... *)
Lemma find_split_first (sep s a b : string) :
  Str.find_split sep s = Some (a, b) ->
  forall a' b', s = a' +++ sep +++ b' -> String.length a <= String.length a'.
Proof.
  revert a b; induction s as [|c r IH]; intros a b H a' b' E;
    rewrite find_split_eq in H.
  - destruct (prefix sep "") eqn:P; [|discriminate].
    injection H as <- <-; simpl; lia.
  - destruct (prefix sep (String c r)) eqn:P.
    + injection H as <- <-; simpl; lia.
    + destruct (Str.find_split sep r) as [[a0 b0]|] eqn:F; [|discriminate].
      injection H as <- <-.
      destruct a' as [|c' a'']; simpl in E.
      * rewrite E, prefix_app in P; discriminate.
      * injection E as _ E. simpl.
        apply le_n_S. eapply IH; [reflexivity | exact E].
Qed.

(** ... and finds one whenever there is one. *)
Lemma find_split_none (sep s : string) :
  Str.find_split sep s = None -> forall a b, s <> a +++ sep +++ b.
Proof.
  induction s as [|c r IH]; intros H a b E; rewrite find_split_eq in H.
  - destruct (prefix sep "") eqn:P; [discriminate|].
    symmetry in E. apply str_app_eq_nil in E as [_ E].
    apply str_app_eq_nil in E as [-> _]. discriminate.
  - destruct (prefix sep (String c r)) eqn:P; [discriminate|].
    destruct (Str.find_split sep r) as [[a0 b0]|] eqn:F; [discriminate|].
    destruct a as [|c' a']; simpl in E.
    + rewrite E, prefix_app in P; discriminate.
    + injection E as _ E. now apply (IH eq_refl a' b).
Qed.

Lemma contains_iff (sep s : string) :
  Str.contains sep s = true <-> exists a b, s = a +++ sep +++ b.
Proof.
  unfold Str.contains; split.
  - destruct (Str.find_split sep s) as [[a b]|] eqn:F; [|discriminate].
    intros _; exists a, b; now apply find_split_sound.
  - intros (a & b & E).
    destruct (Str.find_split sep s) as [[a0 b0]|] eqn:F; [reflexivity|].
    now elim (@find_split_none sep s F a b).
Qed.

Lemma lstrip_by_spec (p : ascii -> bool) (s : string) :
  exists a, s = a +++ Str.lstrip_by p s /\ all_chars p a = true.
Proof.
  induction s as [|c r (a & E & A)]; simpl.
  - exists ""; auto.
  - destruct (p c) eqn:P.
    + exists (String c a); simpl; rewrite P, A; split; [now f_equal | auto].
    + exists ""; auto.
Qed.

Lemma lstrip_by_head (p : ascii -> bool) (s : string) c r :
  Str.lstrip_by p s = String c r -> p c = false.
Proof.
  induction s as [|x q IH]; simpl; [discriminate|].
  destruct (p x) eqn:P; [exact IH|].
  intros E; injection E as <- _; exact P.
Qed.

Lemma rstrip_by_spec (p : ascii -> bool) (s : string) :
  exists b, s = Str.rstrip_by p s +++ b /\ all_chars p b = true.
Proof.
  induction s as [|c r (b & E & B)]; simpl.
  - exists ""; auto.
  - destruct (Str.rstrip_by p r) as [|y r'] eqn:R.
    + destruct (p c) eqn:P.
      * exists (String c b); simpl in *; rewrite P, B; split; [now f_equal | auto].
      * exists b; simpl in *; split; [now f_equal | auto].
    + exists b; simpl in *; split; [now f_equal | auto].
Qed.

Lemma rstrip_by_last (p : ascii -> bool) (s a : string) c :
  Str.rstrip_by p s = a +++ String c "" -> p c = false.
Proof.
  revert a; induction s as [|x r IH]; intros a; simpl.
  - destruct a; discriminate.
  - destruct (Str.rstrip_by p r) as [|y r'] eqn:R.
    + destruct (p x) eqn:P; [destruct a; discriminate|].
      destruct a as [|z a']; simpl; intros E.
      * injection E as <-; exact P.
      * injection E as _ E; destruct a'; discriminate.
    + destruct a as [|z a']; simpl; intros E; [discriminate|].
      injection E as _ E. now apply (IH a').
Qed.

Lemma rstrip_by_head (p : ascii -> bool) (s : string) c r :
  Str.rstrip_by p s = String c r -> exists r', s = String c r'.
Proof.
  destruct s as [|x q]; simpl; [discriminate|].
  destruct (Str.rstrip_by p q).
  - destruct (p x); [discriminate|]. intros E; injection E as <- _; eauto.
  - intros E; injection E as <- _; eauto.
Qed.

(** [s.strip(...)] removes a run of matching characters at each end, and
    leaves none at either end. *)
Lemma strip_by_spec (p : ascii -> bool) (s : string) :
  (exists a b, s = a +++ Str.strip_by p s +++ b
               /\ all_chars p a = true /\ all_chars p b = true)
  /\ clean_ends p (Str.strip_by p s).
Proof.
  unfold Str.strip_by; split.
  - destruct (lstrip_by_spec p s) as (a & E & A).
    destruct (rstrip_by_spec p (Str.lstrip_by p s)) as (b & E' & B).
    exists a, b; split; [|auto]. now rewrite <- E'.
  - split.
    + intros c r E. apply rstrip_by_head in E as [r' E].
      now apply lstrip_by_head in E.
    + intros a c E. now apply rstrip_by_last in E.
Qed.

Lemma rstrip_by_snoc (p : ascii -> bool) (s : string) (c : ascii) :
  p c = true -> Str.rstrip_by p (s +++ String c "") = Str.rstrip_by p s.
Proof.
  intros P. induction s as [|x r IH]; simpl.
  - now rewrite P.
  - now rewrite IH.
Qed.

Lemma nonempty_false (s : string) : Str.nonempty s = false <-> s = "".
Proof. destruct s; simpl; split; congruence. Qed.

Lemma nonempty_true (s : string) : Str.nonempty s = true <-> s <> "".
Proof. destruct s; simpl; split; congruence. Qed.

End StringFacts.

(** ** The helper [strip] *)

Section StripFacts.

Lemma all_blank_repeat (n : nat) : all_blank (repeat "" n).
Proof. induction n; simpl; constructor; auto. Qed.

Lemma all_blank_app (l1 l2 : list string) :
  all_blank l1 -> all_blank l2 -> all_blank (l1 ++ l2).
Proof. intros; now apply Forall_app. Qed.

Lemma strip_leading_ok (obj l : list string) :
  strip_leading obj = Ok l ->
  exists n x r, obj = repeat "" n ++ l /\ l = x :: r /\ x <> "".
Proof.
  induction obj as [|y q IH]; simpl; [discriminate|].
  destruct (String.eqb_spec y "") as [->|N].
  - intros H. destruct (IH H) as (n & x & r & E & L & X).
    exists (S n), x, r; simpl; rewrite <- E; auto.
  - intros H; injection H as <-.
    exists 0, y, q; auto.
Qed.

Lemma strip_leading_raise (obj : list string) e :
  strip_leading obj = Raise e -> e = IndexError /\ all_blank obj.
Proof.
  induction obj as [|y q IH]; simpl.
  - intros H; injection H as <-; split; [reflexivity | constructor].
  - destruct (String.eqb_spec y "") as [->|N]; [|discriminate].
    intros H; destruct (IH H); split; [auto | now constructor].
Qed.

Lemma strip_leading_blank (obj : list string) :
  all_blank obj -> strip_leading obj = Raise IndexError.
Proof.
  induction 1 as [|y q -> _ IH]; simpl; [reflexivity | exact IH].
Qed.

Lemma removelast_length {A : Type} (x : A) (r : list A) :
  List.length (removelast (x :: r)) = List.length r.
Proof.
  revert x; induction r as [|y q IH]; intros x; [reflexivity|].
  change (removelast (x :: y :: q)) with (x :: removelast (y :: q)).
  cbn [List.length]; now rewrite IH.
Qed.

Lemma last_cons {A : Type} (y d : A) (q : list A) :
  last (y :: q) d = last q y.
Proof.
  revert y d; induction q as [|z q IH]; intros y d; [reflexivity|].
  change (last (y :: z :: q) d) with (last (z :: q) d).
  now rewrite !IH.
Qed.

Lemma cons_removelast_last {A : Type} (x : A) (r : list A) :
  x :: r = removelast (x :: r) ++ [last r x].
Proof.
  revert x; induction r as [|y q IH]; intros x; [reflexivity|].
  change (removelast (x :: y :: q)) with (x :: removelast (y :: q)).
  rewrite last_cons. simpl; f_equal; apply IH.
Qed.

Lemma repeat_snoc {A : Type} (x : A) (n : nat) :
  repeat x n ++ [x] = repeat x (S n).
Proof. induction n; simpl; [reflexivity | now f_equal]. Qed.

Lemma strip_trailing_nil (fuel : nat) :
  strip_trailing (S fuel) [] = Some (Raise IndexError).
Proof. reflexivity. Qed.

Lemma strip_trailing_cons (fuel : nat) (x : string) (r : list string) :
  strip_trailing (S fuel) (x :: r) =
  if String.eqb (last r x) "" then strip_trailing fuel (removelast (x :: r))
  else Some (Ok (x :: r)).
Proof. reflexivity. Qed.

(** The fuel of [strip] is enough: the second loop always ends. *)
Lemma strip_trailing_fuel (fuel : nat) (obj : list string) :
  List.length obj < fuel -> strip_trailing fuel obj <> None.
Proof.
  revert obj; induction fuel as [|f IH]; intros obj L; [lia|].
  destruct obj as [|x r]; [discriminate|].
  rewrite strip_trailing_cons.
  destruct (String.eqb (last r x) ""); [|discriminate].
  apply IH. rewrite removelast_length. simpl in L; lia.
Qed.

Lemma strip_trailing_ok (fuel : nat) (obj l : list string) :
  strip_trailing fuel obj = Some (Ok l) ->
  exists m q y, obj = l ++ repeat "" m /\ l = q ++ [y] /\ y <> "".
Proof.
  revert obj; induction fuel as [|f IH]; intros obj; [discriminate|].
  destruct obj as [|x r]; [discriminate|].
  rewrite strip_trailing_cons.
  destruct (String.eqb_spec (last r x) "") as [E|N].
  - intros H. destruct (IH _ H) as (m & q & y & O & L & Y).
    exists (S m), q, y. split; [|auto].
    rewrite (cons_removelast_last x r), E, O, <- app_assoc.
    now rewrite repeat_snoc.
  - intros H; injection H as <-.
    exists 0, (removelast (x :: r)), (last r x).
    rewrite app_nil_r. split; [reflexivity|].
    split; [apply cons_removelast_last | exact N].
Qed.

Lemma strip_trailing_raise (fuel : nat) (obj : list string) e :
  strip_trailing fuel obj = Some (Raise e) -> e = IndexError /\ all_blank obj.
Proof.
  revert obj; induction fuel as [|f IH]; intros obj; [discriminate|].
  destruct obj as [|x r].
  - rewrite strip_trailing_nil.
    intros H; injection H as <-; split; [reflexivity | constructor].
  - rewrite strip_trailing_cons.
    destruct (String.eqb_spec (last r x) "") as [E|N]; [|discriminate].
    intros H. destruct (IH _ H) as [-> B]. split; [reflexivity|].
    rewrite (cons_removelast_last x r), E.
    apply all_blank_app; [exact B | now repeat constructor].
Qed.

Lemma last_snoc {A : Type} (q : list A) (y d : A) : last (q ++ [y]) d = y.
Proof.
  induction q as [|z q IH]; [reflexivity|].
  simpl. destruct (q ++ [y]) eqn:E; [now destruct q | exact IH].
Qed.

(** When [strip] returns, its result is the argument without the empty
    strings at its two ends. *)
Lemma strip_ok (obj l : list string) :
  strip obj = Ok l -> trimmed_from obj l /\ no_blank_ends l.
Proof.
  unfold strip. destruct obj as [|x0 r0].
  - intros H; injection H as <-. split.
    + exists 0, 0; reflexivity.
    + intros x r E; discriminate.
  - destruct (strip_leading (x0 :: r0)) as [e|obj1] eqn:L1; cbn [bind];
      [discriminate|].
    destruct (strip_leading_ok _ _ L1) as (n & x & r & E1 & E2 & X).
    destruct (strip_trailing (S (List.length obj1)) obj1) as [res|] eqn:T;
      [|now elim (strip_trailing_fuel (S (List.length obj1)) obj1
                    (Nat.lt_succ_diag_r _))].
    intros ->.
    destruct (strip_trailing_ok _ _ _ T) as (m & q & y & O & Lq & Y).
    split.
    + exists n, m. now rewrite E1, O.
    + intros x' r' E'. split.
      * rewrite E', E2 in O. simpl in O. injection O as -> _. exact X.
      * rewrite <- (last_cons x' "" r'), <- E', Lq, last_snoc. exact Y.
Qed.

(** [strip] raises exactly on the non-empty lists of empty strings, and
    then it raises [IndexError]. *)
Lemma strip_raise (obj : list string) e :
  strip obj = Raise e -> e = IndexError /\ obj <> [] /\ all_blank obj.
Proof.
  unfold strip. destruct obj as [|x0 r0]; [discriminate|].
  destruct (strip_leading (x0 :: r0)) as [e1|obj1] eqn:L1; cbn [bind].
  - intros H; injection H as <-.
    destruct (strip_leading_raise _ _ L1); repeat split; auto; discriminate.
  - destruct (strip_leading_ok _ _ L1) as (n & x & r & E1 & E2 & X).
    destruct (strip_trailing (S (List.length obj1)) obj1) as [res|] eqn:T;
      [|discriminate].
    intros ->. destruct (strip_trailing_raise _ _ _ T) as [_ B].
    rewrite E2 in B. inversion B; subst. now elim X.
Qed.

Lemma strip_blank (obj : list string) :
  obj <> [] -> all_blank obj -> strip obj = Raise IndexError.
Proof.
  intros N B. destruct obj as [|x r]; [now elim N|].
  unfold strip. now rewrite (strip_leading_blank _ B).
Qed.

Lemma strip_nil : strip [] = Ok [].
Proof. reflexivity. Qed.

(** A list whose first item is not empty is stripped without error. *)
Lemma strip_head_ok (x : string) (r : list string) :
  x <> "" -> exists l, strip (x :: r) = Ok l.
Proof.
  intros X. destruct (strip (x :: r)) as [e|l] eqn:S; [|eauto].
  destruct (strip_raise _ _ S) as (_ & _ & B). inversion B; subst.
  now elim X.
Qed.

End StripFacts.

(** ** In-place updates *)

Section UpdateFacts.

Context {A B : Type}.

Lemma update_last_snoc (f : A -> A) (l : list A) (x : A) :
  update_last f (l ++ [x]) = l ++ [f x].
Proof.
  induction l as [|y q IH]; [reflexivity|].
  simpl. rewrite IH. now destruct q.
Qed.

Lemma update_last_cons (f : A -> A) (x y : A) (l : list A) :
  update_last f (x :: y :: l) = x :: update_last f (y :: l).
Proof. reflexivity. Qed.

Lemma update_last_length (f : A -> A) (l : list A) :
  List.length (update_last f l) = List.length l.
Proof.
  induction l as [|y [|z q] IH]; try reflexivity.
  rewrite update_last_cons. simpl in *. now rewrite IH.
Qed.

Lemma map_update_last (h : A -> B) (f : A -> A) (g : B -> B) (l : list A) :
  (forall x, h (f x) = g (h x)) ->
  map h (update_last f l) = update_last g (map h l).
Proof.
  intros H. induction l as [|y [|z q] IH]; simpl; try reflexivity.
  - now rewrite H.
  - simpl in IH. now rewrite IH.
Qed.

Lemma map_update_last_id (h : A -> B) (f : A -> A) (l : list A) :
  (forall x, h (f x) = h x) -> map h (update_last f l) = map h l.
Proof.
  intros H. induction l as [|y [|z q] IH]; simpl; try reflexivity.
  - now rewrite H.
  - simpl in IH. now rewrite IH.
Qed.

Lemma map_update_at_id (h : A -> B) (f : A -> A) (i : nat) (l : list A) :
  (forall x, h (f x) = h x) -> map h (update_at i f l) = map h l.
Proof.
  intros H. revert i; induction l as [|y q IH]; intros [|i]; simpl;
    try reflexivity.
  - now rewrite H.
  - now rewrite IH.
Qed.

Lemma update_at_length (f : A -> A) (i : nat) (l : list A) :
  List.length (update_at i f l) = List.length l.
Proof.
  revert i; induction l as [|y q IH]; intros [|i]; simpl; auto.
Qed.

End UpdateFacts.

(** ** The loop of [load_whence] *)

(** Case analysis on the key tests of the goal, one test at a time, the
    chain of conditionals being reduced after each. *)
Ltac key_cases :=
  repeat match goal with
    | |- context [String.eqb ?k ?c] =>
        destruct (String.eqb_spec k c); [subst|];
        cbn [orb andb negb existsb String.eqb Ascii.eqb Bool.eqb]; cbv iota
    end.

Section LoopFacts.

Lemma modify_section_ok f st st' :
  modify_section f st = Ok st' ->
  st' = mkLocals (self_header st) (update_last f (self_sections st))
                 (whence_type st) (entry st)
  /\ self_sections st <> [].
Proof.
  unfold modify_section. destruct (self_sections st); [discriminate|].
  intros H; injection H as <-. split; [reflexivity | discriminate].
Qed.

Lemma modify_section_snoc f st ss s :
  self_sections st = ss ++ [s] ->
  modify_section f st
  = Ok (mkLocals (self_header st) (ss ++ [f s]) (whence_type st) (entry st)).
Proof.
  intros E. unfold modify_section. rewrite E.
  destruct (ss ++ [s]) as [|s0 r] eqn:E'; [now destruct ss|].
  now rewrite <- E', update_last_snoc.
Qed.

Lemma modify_section_raise f st e :
  modify_section f st = Raise e -> e = UnboundLocalError "section".
Proof.
  unfold modify_section. destruct (self_sections st); [|discriminate].
  now intros H; injection H.
Qed.

Lemma modify_entry_ok f st st' :
  modify_entry f st = Ok st' ->
  exists i j,
    entry st = Some (i, j) /\
    st' = mkLocals (self_header st)
            (update_at i (fun s => set_entries (update_at j f (entries s)) s)
                       (self_sections st))
            (whence_type st) (entry st).
Proof.
  unfold modify_entry. destruct (entry st) as [[i j]|]; [|discriminate].
  intros H; injection H as <-. now exists i, j.
Qed.

Lemma modify_entry_raise f st e :
  modify_entry f st = Raise e -> e = UnboundLocalError "entry".
Proof.
  unfold modify_entry. destruct (entry st) as [[i j]|]; [discriminate|].
  now intros H; injection H.
Qed.

Lemma modify_entry_unbound f st :
  entry st = None -> modify_entry f st = Raise (UnboundLocalError "entry").
Proof. unfold modify_entry. now intros ->. Qed.

Lemma append_entry_ok e st st' :
  append_entry e st = Ok st' ->
  self_header st' = self_header st
  /\ self_sections st'
     = update_last (fun s => set_entries (entries s ++ [e]) s)
                   (self_sections st)
  /\ whence_type st' = whence_type st
  /\ self_sections st <> [].
Proof.
  unfold append_entry. destruct (self_sections st); [discriminate|].
  intros H; injection H as <-. simpl. repeat split; discriminate.
Qed.

Lemma append_entry_snoc e st ss s :
  self_sections st = ss ++ [s] ->
  append_entry e st
  = Ok (mkLocals (self_header st)
          (ss ++ [set_entries (entries s ++ [e]) s]) (whence_type st)
          (Some (List.length ss, List.length (entries s)))).
Proof.
  intros E. unfold append_entry. rewrite E.
  destruct (ss ++ [s]) as [|s0 r] eqn:E'; [now destruct ss|].
  assert (List.length r = List.length ss) as ->.
  { assert (List.length (s0 :: r) = List.length (ss ++ [s])) as L
        by now rewrite E'.
    rewrite length_app in L. simpl in L. lia. }
  assert (last r s0 = s) as ->
      by now rewrite <- (last_cons s0 s0 r), <- E', last_snoc.
  now rewrite <- E', update_last_snoc.
Qed.

Lemma append_entry_raise e0 st e :
  append_entry e0 st = Raise e -> e = UnboundLocalError "section".
Proof.
  unfold append_entry. destruct (self_sections st); [|discriminate].
  now intros H; injection H.
Qed.

Lemma on_link_raise key val st e :
  on_link key val st = Raise e -> e = UnboundLocalError "section".
Proof.
  unfold on_link. destruct (Str.partition " -> " val). apply append_entry_raise.
Qed.

Lemma recognizer_none key val line st :
  recognizer key val line st = None <-> is_recognized key = false.
Proof.
  unfold recognizer, is_recognized, recognized_keys.
  cbn [existsb]. key_cases; split; congruence.
Qed.

Lemma recognizer_raise key val line st e :
  recognizer key val line st = Some (Raise e) -> unbound e.
Proof.
  unfold recognizer, on_driver, on_file, on_licence.
  key_cases; simpl; intros H; try discriminate; injection H as H;
    first [ apply modify_section_raise in H
          | apply modify_entry_raise in H
          | apply append_entry_raise in H
          | apply on_link_raise in H ];
    subst; eexists; reflexivity.
Qed.

Lemma free_text_raise line st e :
  free_text line st = Raise e -> unbound e.
Proof.
  unfold free_text.
  destruct (whence_type st); simpl; try discriminate;
    try (intros H; apply modify_section_raise in H; subst; eexists;
         reflexivity).
  destruct (Str.nonempty line); simpl; [|discriminate].
  intros H; apply modify_section_raise in H; subst; eexists; reflexivity.
Qed.

(** The loop body raises nothing but [UnboundLocalError]. *)
Lemma process_line_raise st line e :
  process_line st line = Raise e -> unbound e.
Proof.
  unfold process_line. destruct (is_delimiter line); [discriminate|].
  destruct (split_key line) as [[key val]|]; [|apply free_text_raise].
  destruct (recognizer key val line st) as [r|] eqn:R;
    [|apply free_text_raise].
  intros ->. eapply recognizer_raise; eauto.
Qed.

Lemma run_raise lines st e :
  run st lines = Raise e -> unbound e.
Proof.
  revert st; induction lines as [|raw rest IH]; intros st; simpl;
    [discriminate|].
  destruct (process_line st (Str.rstrip raw)) as [e'|st'] eqn:P; simpl.
  - intros H; injection H as <-. eapply process_line_raise; eauto.
  - apply IH.
Qed.

Lemma run_app pre post st :
  run st (pre ++ post) = (st' <- run st pre ;; run st' post).
Proof.
  revert st; induction pre as [|raw rest IH]; intros st; simpl;
    [reflexivity|].
  destruct (process_line st (Str.rstrip raw)); simpl; [reflexivity|].
  apply IH.
Qed.

(** A line is read the same with and without its end-of-line character. *)
Lemma run_newlines lines st :
  run st (map (fun l => l +++ newline) lines) = run st lines.
Proof.
  revert st; induction lines as [|raw rest IH]; intros st; simpl;
    [reflexivity|].
  unfold Str.rstrip at 1, newline. rewrite rstrip_by_snoc by reflexivity.
  fold (Str.rstrip raw).
  destruct (process_line st (Str.rstrip raw)); simpl; [reflexivity|].
  apply IH.
Qed.

Lemma unattributable_never t line : unattributable t line = false.
Proof.
  unfold unattributable.
  destruct (is_delimiter line), (key_test is_recognized line), t,
    (Str.nonempty line); reflexivity.
Qed.

Lemma mapM_strip_section_raise ss e :
  mapM strip_section ss = Raise e -> e = IndexError.
Proof.
  induction ss as [|s r IH]; simpl; [discriminate|].
  unfold strip_section at 1.
  destruct (strip (licence s)) as [e1|l] eqn:L; simpl.
  { intros H; injection H as <-. now apply strip_raise in L. }
  destruct (strip (notes s)) as [e2|n] eqn:N; simpl.
  { intros H; injection H as <-. now apply strip_raise in N. }
  destruct (mapM strip_section r) as [e3|r']; simpl; [|discriminate].
  intros H; injection H as <-. now apply IH.
Qed.

(** What [load_whence] can raise: the exception of the loop, or the
    [IndexError] of [strip]. *)
Lemma load_whence_raise self lines e :
  load_whence self lines = Raise e ->
  (run (init_locals self) lines = Raise e /\ unbound e)
  \/ ((exists st, run (init_locals self) lines = Ok st) /\ e = IndexError).
Proof.
  unfold load_whence.
  destruct (run (init_locals self) lines) as [e0|st] eqn:R; simpl.
  - intros H; injection H as <-. left. split; [reflexivity|].
    eapply run_raise; eauto.
  - intros H. right. split; [eauto|].
    destruct (strip (self_header st)) as [e1|h] eqn:S; simpl in H.
    { injection H as <-. now apply strip_raise in S. }
    destruct (mapM strip_section (self_sections st)) as [e2|ss] eqn:M;
      simpl in H; [|discriminate].
    injection H as <-. now apply mapM_strip_section_raise in M.
Qed.

End LoopFacts.

(** ** The reference held by [entry] *)

Section EntryReference.

Lemma grows_update_last f ss :
  (forall s, List.length (entries s) <= List.length (entries (f s))) ->
  grows ss (update_last f ss).
Proof.
  intros F. induction ss as [|x [|y q] IH]; intros i s H.
  - destruct i; discriminate.
  - destruct i as [|[|i]]; try discriminate. injection H as <-.
    exists (f x). split; [reflexivity | apply F].
  - rewrite update_last_cons. destruct i as [|i].
    + injection H as <-. exists x. split; [reflexivity | lia].
    + apply (IH i s H).
Qed.

Lemma grows_update_at f i0 ss :
  (forall s, List.length (entries s) <= List.length (entries (f s))) ->
  grows ss (update_at i0 f ss).
Proof.
  intros F. revert i0; induction ss as [|x q IH]; intros i0 i s H.
  - destruct i; discriminate.
  - destruct i0 as [|i0], i as [|i]; simpl in *.
    + injection H as <-. exists (f x). split; [reflexivity | apply F].
    + exists s. split; [exact H | lia].
    + injection H as <-. exists x. split; [reflexivity | lia].
    + apply (IH i0 i s H).
Qed.

Lemma grows_snoc ss x : grows ss (ss ++ [x]).
Proof.
  intros i s H. exists s. split; [|lia].
  rewrite nth_error_app1; [exact H|]. apply nth_error_Some. congruence.
Qed.

Lemma entry_bound_grows st st' :
  entry st' = entry st -> grows (self_sections st) (self_sections st') ->
  entry_bound st -> entry_bound st'.
Proof.
  unfold entry_bound. intros -> G. destruct (entry st) as [[i j]|]; [|auto].
  intros (s & H & L). destruct (G i s H) as (s' & H' & L').
  exists s'. split; [exact H' | lia].
Qed.

Lemma snoc_cases {A : Type} (l : list A) :
  l = [] \/ exists q x, l = q ++ [x].
Proof.
  destruct l as [|a r]; [now left | right].
  exists (removelast (a :: r)), (last r a). apply cons_removelast_last.
Qed.

Lemma append_entry_bound e st st' :
  append_entry e st = Ok st' -> entry_bound st'.
Proof.
  destruct (snoc_cases (self_sections st)) as [E | (ss & s & E)].
  - unfold append_entry. now rewrite E.
  - rewrite (append_entry_snoc e st ss s E). intros H; injection H as <-.
    unfold entry_bound; simpl.
    exists (set_entries (entries s ++ [e]) s). split.
    + rewrite nth_error_app2, Nat.sub_diag; [reflexivity | lia].
    + simpl. rewrite length_app. simpl. lia.
Qed.

Lemma free_text_bound line st st' :
  free_text line st = Ok st' -> entry_bound st -> entry_bound st'.
Proof.
  unfold free_text.
  destruct (whence_type st); simpl;
    try (destruct (Str.nonempty line); simpl);
    intros H;
    first [ apply modify_section_ok in H as [-> _];
            apply entry_bound_grows; [reflexivity|];
            apply grows_update_last; intros s; simpl; lia
          | injection H as <-; auto
          | discriminate ].
Qed.

(** The loop keeps the reference of [entry] inside the document: the
    in-place updates of [modify_entry] are never out of range. *)
Lemma process_line_bound st line st' :
  process_line st line = Ok st' -> entry_bound st -> entry_bound st'.
Proof.
  unfold process_line. destruct (is_delimiter line).
  { intros H; injection H as <-.
    apply entry_bound_grows; [reflexivity | apply grows_snoc]. }
  destruct (split_key line) as [[key val]|]; [|apply free_text_bound].
  unfold recognizer, on_driver, on_file, on_link, on_licence.
  destruct (Str.partition " -> " val) as [p t].
  key_cases; intros H;
    first [ exact (free_text_bound _ _ _ H)
          | now apply append_entry_bound in H
          | apply modify_section_ok in H as [-> _];
            apply entry_bound_grows; [reflexivity|];
            apply grows_update_last; intros s; simpl;
            try destruct (Re.search line); simpl; lia
          | apply modify_entry_ok in H as (i & j & _ & ->);
            apply entry_bound_grows; [reflexivity|];
            apply grows_update_at; intros s; simpl;
            rewrite update_at_length; lia ].
Qed.

Lemma run_bound lines st st' :
  run st lines = Ok st' -> entry_bound st -> entry_bound st'.
Proof.
  revert st; induction lines as [|raw rest IH]; intros st; simpl.
  - intros H; now injection H as <-.
  - destruct (process_line st (Str.rstrip raw)) as [e|st1] eqn:P; simpl;
      [discriminate|].
    intros R B. apply (IH _ R). now apply process_line_bound in P.
Qed.

Lemma load_whence_bound self lines st :
  run (init_locals self) lines = Ok st -> entry_bound st.
Proof. intros R. apply (run_bound _ _ _ R). exact I. Qed.

End EntryReference.

(** ** The malformed-line failure *)

(** The loop body raises the failure exactly from its last statement. *)
Lemma process_line_failed_iff st line l :
  process_line st line = Raise (FailedToParseLine l)
  <-> l = line /\ unattributable (whence_type st) line = true.
Proof.
  split.
  - intros H. apply process_line_raise in H as [name H]. discriminate.
  - intros [_ H]. rewrite unattributable_never in H. discriminate.
Qed.

(** C1. [load_whence] fails with the failed-to-parse-line exception, which
    carries the line, if and only if the loop reaches a non-empty line that
    no rule takes in a state without a free-text branch; and it never does:
    every state has a rule for every non-empty line, so the exception is
    raised for no input. *)
Theorem C1_failed_to_parse_iff_unattributable :
  forall (self : Whence) (lines : list string),
    (forall l,
        load_whence self lines = Raise (FailedToParseLine l)
        <-> exists pre raw post st,
            lines = pre ++ raw :: post
            /\ run (init_locals self) pre = Ok st
            /\ l = Str.rstrip raw
            /\ unattributable (whence_type st) l = true)
    /\ (forall l, load_whence self lines <> Raise (FailedToParseLine l)).
Proof.
  intros self lines.
  assert (forall l, load_whence self lines <> Raise (FailedToParseLine l)) as N.
  { intros l H. apply load_whence_raise in H as [[_ [name H]] | [_ H]];
      discriminate. }
  split; [|exact N].
  intros l; split.
  - intros H. now elim (N l).
  - intros (pre & raw & post & st & _ & _ & _ & U).
    rewrite unattributable_never in U. discriminate.
Qed.

(** ** Precedence of the delimiter and of the recognizers *)

Section Precedence.

Lemma contains_cons_false sep x s :
  Str.contains sep (String x s) = false ->
  prefix sep (String x s) = false /\ Str.contains sep s = false.
Proof.
  unfold Str.contains. rewrite (find_split_eq sep (String x s)).
  destruct (prefix sep (String x s)); [discriminate|].
  destruct (Str.find_split sep s) as [[a b]|]; [discriminate|]. auto.
Qed.

(** Splitting at a character that the text before it does not hold. *)
Lemma find_split_char c a b :
  Str.contains (String c "") a = false ->
  Str.find_split (String c "") (a +++ String c b) = Some (a, b).
Proof.
  induction a as [|x a' IH]; intros H; rewrite find_split_eq.
  - simpl. destruct (ascii_dec c c) as [_|N]; [|now elim N].
    now destruct b.
  - apply contains_cons_false in H as [P H].
    assert (prefix (String c "") (String x a' +++ String c b) = false) as ->.
    { simpl in *. destruct (ascii_dec c x); [|reflexivity].
      now destruct a'. }
    simpl. now rewrite (IH H).
Qed.

(** A line that starts with a key and a colon *)
Lemma split_key_literal key rest :
  Str.contains ":" key = false ->
  split_key (key +++ ":" +++ rest) = Some (key, Str.strip rest).
Proof.
  intros H. unfold split_key.
  change (key +++ ":" +++ rest) with (key +++ String ":" rest).
  now rewrite (find_split_char ":" key rest H).
Qed.

Lemma process_line_keyed st key rest :
  Str.contains ":" key = false ->
  is_delimiter (key +++ ":" +++ rest) = false ->
  process_line st (key +++ ":" +++ rest)
  = match recognizer key (Str.strip rest) (key +++ ":" +++ rest) st with
    | Some r => r
    | None => free_text (key +++ ":" +++ rest) st
    end.
Proof.
  intros K D. unfold process_line.
  now rewrite D, (split_key_literal key rest K).
Qed.

Lemma split_key_sound line key val :
  split_key line = Some (key, val) ->
  exists rest, line = key +++ ":" +++ rest /\ val = Str.strip rest.
Proof.
  unfold split_key.
  destruct (Str.find_split ":" line) as [[k v]|] eqn:F; [|discriminate].
  intros H; injection H as <- <-. exists v. split; [|reflexivity].
  now apply find_split_sound.
Qed.

(** A line with a recognized key is not a section delimiter. *)
Lemma recognized_not_delimiter line key val :
  split_key line = Some (key, val) -> is_recognized key = true ->
  is_delimiter line = false.
Proof.
  intros S R. apply split_key_sound in S as (rest & -> & _).
  unfold is_recognized, recognized_keys in R. simpl in R.
  repeat (apply orb_prop in R as [R|R];
          [apply String.eqb_eq in R; subst; reflexivity|]).
  discriminate.
Qed.

(** A recognized key, a colon and any text make a line of that key. *)
Lemma recognized_key_line key rest :
  is_recognized key = true ->
  is_delimiter (key +++ ":" +++ rest) = false
  /\ split_key (key +++ ":" +++ rest) = Some (key, Str.strip rest).
Proof.
  intros R. unfold is_recognized, recognized_keys in R. simpl in R.
  repeat (apply orb_prop in R as [R|R];
          [apply String.eqb_eq in R; subst; split;
           [reflexivity | apply split_key_literal; reflexivity]|]).
  discriminate.
Qed.

Lemma process_line_delimiter st line :
  is_delimiter line = true -> process_line st line = Ok (start_section st).
Proof. unfold process_line. now intros ->. Qed.

Lemma process_line_recognized st line key val :
  is_delimiter line = false -> split_key line = Some (key, val) ->
  is_recognized key = true ->
  exists r, recognizer key val line st = Some r /\ process_line st line = r.
Proof.
  intros D S R. unfold process_line. rewrite D, S.
  destruct (recognizer key val line st) as [r|] eqn:E; [eauto|].
  apply recognizer_none in E. congruence.
Qed.

Lemma process_line_free_text st line :
  is_delimiter line = false -> key_test is_recognized line = false ->
  process_line st line = free_text line st.
Proof.
  unfold key_test, line_key, process_line. intros ->.
  destruct (split_key line) as [[key val]|]; [|reflexivity].
  intros R. apply (recognizer_none key val line st) in R. now rewrite R.
Qed.

(** The action of a recognizer does not read [whence_type]. *)
Lemma recognizer_state_blind key val line st t t' r1 r2 :
  recognizer key val line (set_whence_type t st) = Some r1 ->
  recognizer key val line st = Some r2 ->
  fmap (set_whence_type t') r1 = fmap (set_whence_type t') r2.
Proof.
  unfold recognizer, on_driver, on_file, on_link, on_licence,
    modify_section, modify_entry, append_entry.
  destruct (Str.partition " -> " val) as [p g].
  key_cases; simpl; intros H1 H2; try discriminate;
    injection H1 as <-; injection H2 as <-;
    destruct (self_sections st), (entry st) as [[i j]|]; reflexivity.
Qed.

(** What a recognizer leaves alone. *)
Lemma recognizer_frame key val line st st' :
  recognizer key val line st = Some (Ok st') ->
  self_header st' = self_header st
  /\ map notes (self_sections st') = map notes (self_sections st)
  /\ (is_licence_key key = false ->
      whence_type st' = whence_type st
      /\ map licence (self_sections st') = map licence (self_sections st))
  /\ (is_licence_key key = true ->
      whence_type st' = LICENCE
      /\ map licence (self_sections st')
         = update_last
             (fun l => l ++ [if Str.nonempty val then val else "--"])
             (map licence (self_sections st))).
Proof.
  unfold recognizer, is_licence_key, on_driver, on_file, on_link, on_licence.
  destruct (Str.partition " -> " val) as [p g].
  key_cases; simpl; intros H; try discriminate; injection H as H;
    first [ apply modify_section_ok in H as [-> _]
          | apply modify_entry_ok in H as (i & j & _ & ->)
          | apply append_entry_ok in H as (H1 & -> & H3 & _) ];
    simpl; repeat split; try discriminate; auto;
    try (intros _; split; auto);
    try (apply map_update_last_id; intros x; destruct (Re.search line);
         reflexivity);
    try (apply map_update_at_id; intros x; reflexivity);
    try (apply map_update_last; intros x; destruct (Re.search line);
         reflexivity).
Qed.

End Precedence.

(** C2. In every state, a line that starts with ten dashes starts a new
    section, appended to [self.sections], whatever else the line holds; and a
    line that is not a delimiter and whose key is one of the recognized ones
    is handled by the recognizer of that key, with the same outcome in every
    state: the header and the notes stay as they are, and the licence lists
    change only through the licence recognizer, which appends the value (or
    the placeholder), never the raw line. *)
Theorem C2_delimiter_then_recognizers_in_every_state :
  forall (st : Locals) (line : string),
    (is_delimiter line = true <-> exists rest, line = "----------" +++ rest)
    /\ (forall key rest,
           is_recognized key = true ->
           is_delimiter (key +++ ":" +++ rest) = false
           /\ split_key (key +++ ":" +++ rest) = Some (key, Str.strip rest))
    /\ (is_delimiter line = true ->
     process_line st line
     = Ok (mkLocals (self_header st) (self_sections st ++ [new_Section])
                    SECTION (entry st)))
    /\ (forall key val,
           is_delimiter line = false ->
           split_key line = Some (key, val) ->
           is_recognized key = true ->
           (exists r, recognizer key val line st = Some r
                      /\ process_line st line = r)
           /\ (forall t t',
                  fmap (set_whence_type t')
                       (process_line (set_whence_type t st) line)
                  = fmap (set_whence_type t') (process_line st line))
           /\ (forall st',
                  process_line st line = Ok st' ->
                  self_header st' = self_header st
                  /\ map notes (self_sections st')
                     = map notes (self_sections st)
                  /\ (is_licence_key key = false ->
                      whence_type st' = whence_type st
                      /\ map licence (self_sections st')
                         = map licence (self_sections st))
                  /\ (is_licence_key key = true ->
                      whence_type st' = LICENCE
                      /\ map licence (self_sections st')
                         = update_last
                             (fun l =>
                                l ++ [if Str.nonempty val then val else "--"])
                             (map licence (self_sections st))))).
Proof.
  intros st line. split; [apply prefix_iff|]. split; [|split].
  - apply recognized_key_line.
  - intros D. now rewrite process_line_delimiter.
  - intros key val D S R.
    destruct (process_line_recognized st line key val D S R) as (r & Hr & P).
    split; [eauto|]. split.
    + intros t t'.
      destruct (process_line_recognized (set_whence_type t st) line key val
                  D S R) as (r1 & Hr1 & P1).
      rewrite P, P1. eapply recognizer_state_blind; eauto.
    + intros st' H. rewrite H in P. subst r.
      now apply recognizer_frame with (line := line).
Qed.

(** A licence line read in the header state of a manifest with one section:
    the recognizer fires, and the header is left alone. *)
Lemma C2_witness :
  let st := mkLocals ["Title"] [new_Section] HEADER None in
  process_line st "----------------"
  = Ok (mkLocals ["Title"] [new_Section; new_Section] SECTION None)
  /\ process_line st "Licence: GPL-2"
     = Ok (mkLocals ["Title"]
             [mkSection "" "" "" ["GPL-2"] "" [] []] LICENCE None)
  /\ forall st',
      process_line st "Licence: GPL-2" = Ok st' ->
      self_header st' = ["Title"] /\ whence_type st' = LICENCE.
Proof.
  intros st.
  destruct (C2_delimiter_then_recognizers_in_every_state st "----------------")
    as (_ & _ & HD & _).
  destruct (C2_delimiter_then_recognizers_in_every_state st "Licence: GPL-2")
    as (_ & _ & _ & HK).
  destruct (HK "Licence" "GPL-2" eq_refl eq_refl eq_refl) as (_ & _ & HF).
  split; [exact (HD eq_refl)|]. split; [reflexivity|].
  intros st' H. destruct (HF st' H) as (H1 & _ & _ & H4).
  destruct (H4 eq_refl) as [H5 _]. split; [exact H1 | exact H5].
Defined.

(** ** The trimming pass *)

Lemma strip_section_ok s s' :
  strip_section s = Ok s' -> stripped_section s s'.
Proof.
  unfold strip_section.
  destruct (strip (licence s)) as [e|l] eqn:L; simpl; [discriminate|].
  destruct (strip (notes s)) as [e|n] eqn:N; simpl; [discriminate|].
  intros H; injection H as <-.
  apply strip_ok in L as [L1 L2]. apply strip_ok in N as [N1 N2].
  unfold stripped_section; simpl. tauto.
Qed.

Lemma mapM_strip_section_ok ss ss' :
  mapM strip_section ss = Ok ss' -> Forall2 stripped_section ss ss'.
Proof.
  revert ss'; induction ss as [|s r IH]; intros ss'; simpl.
  - intros H; injection H as <-. constructor.
  - destruct (strip_section s) as [e|s'] eqn:S; simpl; [discriminate|].
    destruct (mapM strip_section r) as [e|r']; simpl; [discriminate|].
    intros H; injection H as <-.
    constructor; [now apply strip_section_ok | now apply IH].
Qed.

Lemma load_whence_ok self lines doc :
  load_whence self lines = Ok doc ->
  exists st,
    run (init_locals self) lines = Ok st
    /\ strip (self_header st) = Ok (header doc)
    /\ mapM strip_section (self_sections st) = Ok (sections doc).
Proof.
  unfold load_whence.
  destruct (run (init_locals self) lines) as [e|st]; simpl; [discriminate|].
  destruct (strip (self_header st)) as [e|h] eqn:S; simpl; [discriminate|].
  destruct (mapM strip_section (self_sections st)) as [e|ss] eqn:M; simpl;
    [discriminate|].
  intros H; injection H as <-. exists st. auto.
Qed.

(** C3. When [load_whence] returns, the header and the notes and licence
    lists of every section neither begin nor end with an empty line, and
    each of them is what the loop collected without the empty lines at its
    two ends, the inner ones staying; the header lines "", "Title", ""
    before the first delimiter give the header "Title". *)
Theorem C3_no_blank_line_at_either_end :
  (forall (self : Whence) (lines : list string) (doc : Whence),
      load_whence self lines = Ok doc ->
      no_blank_ends (header doc)
      /\ Forall (fun s => no_blank_ends (notes s) /\ no_blank_ends (licence s))
                (sections doc)
      /\ exists st,
          run (init_locals self) lines = Ok st
          /\ trimmed_from (self_header st) (header doc)
          /\ Forall2 stripped_section (self_sections st) (sections doc))
  /\ load_whence new_Whence [""; "Title"; ""; "----------"]
     = Ok (mkWhence ["Title"] [new_Section])
  /\ load_whence new_Whence [""; "Title"; ""] = Ok (mkWhence ["Title"] []).
Proof.
  split; [|split; reflexivity].
  intros self lines doc H.
  apply load_whence_ok in H as (st & R & S & M).
  apply strip_ok in S as [S1 S2]. apply mapM_strip_section_ok in M.
  split; [exact S2|]. split; [|exists st; auto].
  clear - M. induction M as [|s s' r r' Hs _ IH]; constructor; [|exact IH].
  unfold stripped_section in Hs. tauto.
Qed.

(** A manifest with empty lines inside its header and inside the notes of
    its section, and around both. *)
Lemma C3_witness :
  let lines := [""; "Title"; ""; "More"; ""; "----------";
                "first note"; ""; "second note"; ""] in
  let doc := mkWhence ["Title"; ""; "More"]
               [mkSection "" "" "" [] "" ["first note"; ""; "second note"] []]
  in
  load_whence new_Whence lines = Ok doc
  /\ no_blank_ends (header doc)
  /\ Forall (fun s => no_blank_ends (notes s) /\ no_blank_ends (licence s))
            (sections doc).
Proof.
  intros lines doc.
  assert (load_whence new_Whence lines = Ok doc) as H by reflexivity.
  destruct C3_no_blank_line_at_either_end as [HC _].
  destruct (HC new_Whence lines doc H) as (H1 & H2 & _).
  split; [exact H|]. split; [exact H1 | exact H2].
Defined.

(** ** A header of empty lines only *)

Section BlankHeader.

(** Once the loop has left the header state, it does not come back, and
    the header is not touched again. *)
Lemma process_line_after_header st line st' :
  process_line st line = Ok st' -> whence_type st <> HEADER ->
  whence_type st' <> HEADER /\ self_header st' = self_header st.
Proof.
  intros P T. destruct (is_delimiter line) eqn:D.
  { rewrite (process_line_delimiter _ _ D) in P. injection P as <-.
    split; [discriminate | reflexivity]. }
  destruct (key_test is_recognized line) eqn:R.
  - unfold key_test, line_key in R. rewrite D in R.
    destruct (split_key line) as [[key val]|] eqn:S; [|discriminate].
    destruct (process_line_recognized st line key val D S R)
      as (r & Hr & E).
    rewrite P in E. rewrite <- E in Hr.
    apply recognizer_frame in Hr as (H1 & _ & H3 & H4).
    split; [|exact H1].
    destruct (is_licence_key key).
    + destruct (H4 eq_refl) as [-> _]. discriminate.
    + destruct (H3 eq_refl) as [-> _]. exact T.
  - rewrite (process_line_free_text _ _ D R) in P. unfold free_text in P.
    destruct (whence_type st) eqn:W; simpl in P; try (now elim T).
    + destruct (Str.nonempty line); simpl in P.
      * apply modify_section_ok in P as [-> _]. simpl.
        split; [discriminate | reflexivity].
      * injection P as <-. rewrite W. split; [discriminate | reflexivity].
    + apply modify_section_ok in P as [-> _]. simpl.
      split; [discriminate | reflexivity].
    + apply modify_section_ok in P as [-> _]. simpl. rewrite W.
      split; [discriminate | reflexivity].
Qed.

Lemma run_after_header lines st st' :
  run st lines = Ok st' -> whence_type st <> HEADER ->
  self_header st' = self_header st.
Proof.
  revert st; induction lines as [|raw rest IH]; intros st; simpl.
  - intros H _; now injection H as <-.
  - destruct (process_line st (Str.rstrip raw)) as [e|st1] eqn:P; simpl;
      [discriminate|].
    intros R T. destruct (process_line_after_header _ _ _ P T) as [T1 H1].
    rewrite <- H1. now apply IH.
Qed.

Lemma process_line_blank_header st :
  whence_type st = HEADER ->
  process_line st ""
  = Ok (mkLocals (self_header st ++ [""]) (self_sections st) HEADER
                 (entry st)).
Proof.
  intros W. unfold process_line, free_text; simpl. now rewrite W.
Qed.

Lemma run_blank_header lines st st' :
  whence_type st = HEADER -> blank_header lines = true ->
  all_blank (self_header st) ->
  run st lines = Ok st' ->
  all_blank (self_header st')
  /\ List.length (self_header st) <= List.length (self_header st').
Proof.
  revert st; induction lines as [|raw rest IH]; intros st W B A; simpl.
  - intros H; injection H as <-. auto.
  - simpl in B. destruct (is_delimiter (Str.rstrip raw)) eqn:D.
    + rewrite (process_line_delimiter _ _ D). simpl. intros R.
      apply run_after_header in R; [|discriminate].
      simpl in R. rewrite R. auto.
    + apply andb_prop in B as [E B]. apply String.eqb_eq in E.
      rewrite E, (process_line_blank_header _ W). simpl. intros R.
      apply IH in R; simpl; auto.
      * destruct R as [R1 R2]. split; [exact R1|].
        simpl in R2. rewrite length_app in R2. simpl in R2. lia.
      * apply all_blank_app; [exact A | now repeat constructor].
Qed.

Lemma run_blank_header_manifest lines st st' :
  whence_type st = HEADER -> blank_header_manifest lines = true ->
  all_blank (self_header st) ->
  run st lines = Ok st' ->
  all_blank (self_header st') /\ self_header st' <> [].
Proof.
  intros W B A. destruct lines as [|raw rest]; [discriminate|].
  unfold blank_header_manifest in B. apply andb_prop in B as [D B].
  apply negb_true_iff in D. simpl in B. rewrite D in B.
  apply andb_prop in B as [E B]. apply String.eqb_eq in E.
  simpl. rewrite E, (process_line_blank_header _ W). simpl. intros R.
  apply run_blank_header in R; simpl; auto.
  - destruct R as [R1 R2]. split; [exact R1|].
    simpl in R2. rewrite length_app in R2. simpl in R2.
    destruct (self_header st'); [simpl in R2; lia | discriminate].
  - apply all_blank_app; [exact A | now repeat constructor].
Qed.

(** The loop does not fail on blank lines alone. *)
Lemma run_blank_lines lines st :
  whence_type st = HEADER ->
  Forall (fun raw => Str.rstrip raw = "") lines ->
  exists st', run st lines = Ok st'.
Proof.
  intros W F. revert st W; induction F as [|raw rest E _ IH]; intros st W;
    simpl; [eauto|].
  rewrite E, (process_line_blank_header _ W). simpl. now apply IH.
Qed.

End BlankHeader.

(** C4, as the code has it.  When every line before the first section
    delimiter is blank, and there is such a line, [load_whence] returns no
    document: it raises the [IndexError] of [strip] as soon as the loop
    itself ends without an exception, which it does when all lines are
    blank; when the loop raises, that [UnboundLocalError] is what
    [load_whence] raises. *)
Theorem C4_blank_header_never_returns :
  forall (self : Whence) (lines : list string),
    all_blank (header self) ->
    blank_header_manifest lines = true ->
    (forall doc, load_whence self lines <> Ok doc)
    /\ (forall st, run (init_locals self) lines = Ok st ->
                   load_whence self lines = Raise IndexError)
    /\ (forall e, run (init_locals self) lines = Raise e ->
                  load_whence self lines = Raise e /\ unbound e)
    /\ (Forall (fun raw => Str.rstrip raw = "") lines ->
        load_whence self lines = Raise IndexError).
Proof.
  intros self lines A B.
  assert (forall st, run (init_locals self) lines = Ok st ->
                     load_whence self lines = Raise IndexError) as H.
  { intros st R. unfold load_whence. rewrite R. simpl.
    apply run_blank_header_manifest in R as [R1 R2]; auto.
    now rewrite (strip_blank _ R2 R1). }
  split; [|split; [exact H|split]].
  - intros doc E.
    destruct (load_whence_ok self lines doc E) as (st & R & _).
    apply H in R. rewrite R in E. discriminate.
  - intros e R. split; [|eapply run_raise; eauto].
    unfold load_whence. now rewrite R.
  - intros F.
    destruct (run_blank_lines lines (init_locals self) eq_refl F) as [st R].
    eauto.
Qed.

(** The loop of this manifest raises before the trimming pass is reached:
    the failure is not the [IndexError]. *)
Lemma C4_counterexample :
  blank_header_manifest [""; "----------"; "Version: 1"] = true
  /\ load_whence new_Whence [""; "----------"; "Version: 1"]
     <> Raise IndexError.
Proof. split; [reflexivity | discriminate]. Qed.

(** A file of two blank lines, and a blank line before a section. *)
Lemma C4_witness :
  load_whence new_Whence [" "; ""] = Raise IndexError
  /\ load_whence new_Whence [""; "----------"; "Driver: x"]
     = Raise IndexError
  /\ forall doc, load_whence new_Whence [""; "----------"; "Driver: x"]
                 <> Ok doc.
Proof.
  split; [|split].
  - apply (C4_blank_header_never_returns new_Whence [" "; ""]);
      [constructor | reflexivity |].
    repeat constructor.
  - destruct (C4_blank_header_never_returns new_Whence
                [""; "----------"; "Driver: x"]) as (_ & H & _);
      [constructor | reflexivity |].
    eapply H. reflexivity.
  - apply (C4_blank_header_never_returns new_Whence
             [""; "----------"; "Driver: x"]); [constructor | reflexivity].
Defined.

(** ** The [Driver:] recognizer *)

Section Driver.

Lemma split_driver_no_space val :
  Str.contains " " val = false -> split_driver val = (val, "").
Proof.
  unfold split_driver, Str.contains.
  now destruct (Str.find_split " " val) as [[a b]|].
Qed.

Lemma split_driver_space a b :
  Str.contains " " a = false ->
  split_driver (a +++ " " +++ b) = (a, Str.strip_chars " -" b).
Proof.
  intros H. unfold split_driver.
  change (a +++ " " +++ b) with (a +++ String " " b).
  now rewrite (find_split_char " " a b H).
Qed.

Lemma process_driver_line st ss s rest :
  self_sections st = ss ++ [s] ->
  process_line st ("Driver:" +++ rest)
  = Ok (mkLocals (self_header st)
          (ss ++ [set_driver (Str.strip rest)
                    (fst (split_driver (Str.strip rest)))
                    (snd (split_driver (Str.strip rest))) s])
          (whence_type st) (entry st)).
Proof.
  intros E.
  change ("Driver:" +++ rest) with ("Driver" +++ ":" +++ rest).
  rewrite process_line_keyed by reflexivity.
  change (recognizer "Driver" (Str.strip rest)
            ("Driver" +++ ":" +++ rest) st)
    with (Some (on_driver (Str.strip rest) st)).
  unfold on_driver. now apply modify_section_snoc.
Qed.

End Driver.

(** The description loses the [" "] and ["-"] characters at its end too, and
    a tab does not split the value. *)
Lemma C5_counterexample :
  split_driver "foo - bar -" <> Spec.split_driver "foo - bar -"
  /\ split_driver "foo - bar -" = ("foo", "bar")
  /\ Spec.split_driver "foo - bar -" = ("foo", "bar -").
Proof. repeat split; [discriminate | reflexivity..]. Qed.

(** C5, as the code has it.  A [Driver:] line sets [driver] of the current
    section to the trimmed value.  The value is split at its first space
    character: [module] is the text before it and [description] is the
    text after it without the [" "] and ["-"] characters at its two ends;
    a value without a space character is the module, and the description is
    then empty.  [Driver: rtlwifi - Realtek wifi driver] gives the module
    [rtlwifi] and the description [Realtek wifi driver]. *)
Theorem C5_driver_line_sets_module_and_description :
  (forall (st : Locals) (ss : list DriverSection) (s : DriverSection)
          (rest : string),
      self_sections st = ss ++ [s] ->
      exists m d,
        process_line st ("Driver:" +++ rest)
        = Ok (mkLocals (self_header st)
                (ss ++ [set_driver (Str.strip rest) m d s])
                (whence_type st) (entry st))
        /\ (Str.contains " " (Str.strip rest) = false ->
            m = Str.strip rest /\ d = "")
        /\ (forall a b,
               Str.strip rest = a +++ " " +++ b ->
               Str.contains " " a = false ->
               m = a /\ d = Str.strip_chars " -" b
               /\ clean_ends (fun c => Str.mem c " -") d
               /\ exists x y,
                   b = x +++ d +++ y
                   /\ all_chars (fun c => Str.mem c " -") x = true
                   /\ all_chars (fun c => Str.mem c " -") y = true))
  /\ process_line (mkLocals [] [new_Section] SECTION None)
       "Driver: rtlwifi - Realtek wifi driver"
     = Ok (mkLocals []
             [mkSection "rtlwifi - Realtek wifi driver" "rtlwifi"
                "Realtek wifi driver" [] "" [] []]
             SECTION None).
Proof.
  split; [|reflexivity].
  intros st ss s rest E.
  exists (fst (split_driver (Str.strip rest))),
         (snd (split_driver (Str.strip rest))).
  split; [now apply process_driver_line|]. split.
  - intros H. now rewrite (split_driver_no_space _ H).
  - intros a b V H. rewrite V, (split_driver_space a b H). simpl.
    split; [reflexivity|]. split; [reflexivity|].
    unfold Str.strip_chars.
    destruct (strip_by_spec (fun c => Str.mem c " -") b)
      as [(x & y & B & X & Y) C].
    split; [exact C|]. now exists x, y.
Qed.

(** A driver line whose description ends with a dash, in the second of two
    sections. *)
Lemma C5_witness :
  exists m d,
    process_line (mkLocals ["Title"] [new_Section; new_Section] NOTES None)
                 "Driver:  foo  - bar -"
    = Ok (mkLocals ["Title"]
            [new_Section; set_driver "foo  - bar -" m d new_Section]
            NOTES None)
    /\ m = "foo" /\ d = "bar".
Proof.
  destruct C5_driver_line_sets_module_and_description as [H _].
  destruct (H (mkLocals ["Title"] [new_Section; new_Section] NOTES None)
              [new_Section] new_Section "  foo  - bar -" eq_refl)
    as (m & d & P & _ & S).
  exists m, d. split; [exact P|].
  destruct (S "foo" " - bar -" eq_refl eq_refl) as (-> & -> & _).
  split; reflexivity.
Defined.

(** ** The [Link:] recognizer *)

Section Link.

Lemma strip_last_not_space s a c :
  Str.strip s = a +++ String c "" -> Str.isspace c = false.
Proof.
  unfold Str.strip. intros E.
  destruct (strip_by_spec Str.isspace s) as [_ [_ C]]. now apply (C a c).
Qed.

Lemma partition_found sep s :
  Str.contains sep s = true ->
  s = fst (Str.partition sep s) +++ sep +++ snd (Str.partition sep s)
  /\ forall a b, s = a +++ sep +++ b ->
                 String.length (fst (Str.partition sep s)) <= String.length a.
Proof.
  unfold Str.contains, Str.partition.
  destruct (Str.find_split sep s) as [[p t]|] eqn:F; [|discriminate].
  intros _. simpl. split.
  - now apply find_split_sound.
  - now apply (find_split_first sep s p t).
Qed.

Lemma partition_missing sep s :
  Str.contains sep s = false -> Str.partition sep s = (s, "").
Proof.
  unfold Str.contains, Str.partition.
  now destruct (Str.find_split sep s) as [[p t]|].
Qed.

Lemma process_link_line st ss s rest :
  self_sections st = ss ++ [s] ->
  process_line st ("Link:" +++ rest)
  = Ok (mkLocals (self_header st)
          (ss ++ [set_entries
                    (entries s
                     ++ [new_Entry "Link"
                           (fst (Str.partition " -> " (Str.strip rest)))
                           (snd (Str.partition " -> " (Str.strip rest)))])
                    s])
          (whence_type st)
          (Some (List.length ss, List.length (entries s)))).
Proof.
  intros E.
  change ("Link:" +++ rest) with ("Link" +++ ":" +++ rest).
  rewrite process_line_keyed by reflexivity.
  change (recognizer "Link" (Str.strip rest) ("Link" +++ ":" +++ rest) st)
    with (Some (on_link "Link" (Str.strip rest) st)).
  unfold on_link.
  destruct (Str.partition " -> " (Str.strip rest)) as [p t]. simpl.
  now apply append_entry_snoc.
Qed.

End Link.

(** The line holds the separator, between the colon and the value, and the
    target is empty. *)
Lemma C6_counterexample :
  Str.contains " -> " "Link: -> x" = true
  /\ process_line (mkLocals [] [new_Section] SECTION None) "Link: -> x"
     = Ok (mkLocals []
             [set_entries [new_Entry "Link" "-> x" ""] new_Section]
             SECTION (Some (0, 0))).
Proof. split; vm_compute; reflexivity. Qed.

(** C6, as the code has it.  A [Link:] line appends a new entry of type
    [Link] to the current section and makes it the current entry.  The
    trimmed value is split at its first [" -> "] into [path] and [target];
    the target is not empty whenever the trimmed value holds the separator,
    and otherwise the target is empty and the path is the whole trimmed
    value.  [Link: foo.bin -> bar.bin] gives the path [foo.bin] and the
    target [bar.bin]; [Link: foo.bin] gives the path [foo.bin] and an empty
    target. *)
Theorem C6_link_line_path_and_target :
  (forall (st : Locals) (ss : list DriverSection) (s : DriverSection)
          (rest : string),
      self_sections st = ss ++ [s] ->
      exists p t,
        process_line st ("Link:" +++ rest)
        = Ok (mkLocals (self_header st)
                (ss ++ [set_entries (entries s ++ [new_Entry "Link" p t]) s])
                (whence_type st)
                (Some (List.length ss, List.length (entries s))))
        /\ (Str.contains " -> " (Str.strip rest) = true ->
            t <> ""
            /\ Str.strip rest = p +++ " -> " +++ t
            /\ forall a b, Str.strip rest = a +++ " -> " +++ b ->
                           String.length p <= String.length a)
        /\ (Str.contains " -> " (Str.strip rest) = false ->
            t = "" /\ p = Str.strip rest))
  /\ process_line (mkLocals [] [new_Section] SECTION None)
       "Link: foo.bin -> bar.bin"
     = Ok (mkLocals []
             [set_entries [new_Entry "Link" "foo.bin" "bar.bin"] new_Section]
             SECTION (Some (0, 0)))
  /\ process_line (mkLocals [] [new_Section] SECTION None) "Link: foo.bin"
     = Ok (mkLocals []
             [set_entries [new_Entry "Link" "foo.bin" ""] new_Section]
             SECTION (Some (0, 0))).
Proof.
  split; [|split; vm_compute; reflexivity].
  intros st ss s rest E.
  exists (fst (Str.partition " -> " (Str.strip rest))),
         (snd (Str.partition " -> " (Str.strip rest))).
  split; [now apply process_link_line|]. split.
  - intros H. destruct (partition_found " -> " (Str.strip rest) H) as [V F].
    split; [|split; [exact V | exact F]].
    intros T. rewrite T in V.
    change (" -> " +++ "") with (" ->" +++ String " " "") in V.
    rewrite <- str_app_assoc in V.
    apply strip_last_not_space in V. discriminate.
  - intros H. now rewrite (partition_missing _ _ H).
Qed.

(** A link whose target holds the separator once more, in a section that
    has an entry already. *)
Lemma C6_witness :
  exists p t,
    process_line
      (mkLocals [] [set_entries [new_Entry "File" "a" ""] new_Section]
                NOTES (Some (0, 0)))
      "Link: x -> y -> z"
    = Ok (mkLocals []
            [set_entries [new_Entry "File" "a" ""; new_Entry "Link" p t]
                         new_Section]
            NOTES (Some (0, 1)))
    /\ p = "x" /\ t = "y -> z" /\ t <> "".
Proof.
  destruct C6_link_line_path_and_target as [H _].
  destruct (H (mkLocals [] [set_entries [new_Entry "File" "a" ""] new_Section]
                        NOTES (Some (0, 0)))
              [] (set_entries [new_Entry "File" "a" ""] new_Section)
              " x -> y -> z" eq_refl)
    as (p & t & P & S & _).
  exists p, t. split; [exact P|].
  destruct (S eq_refl) as (N & V & F).
  assert (p = "x") as Hp.
  { specialize (F "x" "y -> z" eq_refl).
    destruct p as [|c [|c' p']]; simpl in F; [discriminate V | | lia].
    now injection V as ->. }
  subst p. split; [reflexivity|]. split; [|exact N].
  now injection V as <-.
Defined.

(** ** The licence recognizer and its regular expression *)

Section Regex.

Lemma nonspace_plus_sound s m :
  Re.nonspace_plus s = Some m ->
  m <> "" /\ no_space m = true
  /\ exists post, s = m +++ Re.tail_lit +++ post.
Proof.
  revert m; induction s as [|c r IH]; intros m; simpl; [discriminate|].
  destruct (Ascii.eqb c " ") eqn:C; [discriminate|].
  destruct (Re.nonspace_plus r) as [m'|] eqn:N.
  - intros H; injection H as <-.
    destruct (IH m' eq_refl) as (_ & S & post & E).
    split; [discriminate|]. split.
    + unfold no_space in *; simpl. now rewrite C.
    + exists post. rewrite E. reflexivity.
  - destruct (prefix Re.tail_lit r) eqn:P; [|discriminate].
    intros H; injection H as <-.
    split; [discriminate|]. split.
    + unfold no_space; simpl. now rewrite C.
    + apply prefix_inv in P.
      exists (Str.drop (String.length Re.tail_lit) r).
      rewrite P at 1. reflexivity.
Qed.

Lemma nonspace_plus_complete suf post :
  suf <> "" -> no_space suf = true ->
  Re.nonspace_plus (suf +++ Re.tail_lit +++ post) = Some suf.
Proof.
  induction suf as [|c r IH]; intros N S; [now elim N|].
  unfold no_space in S; simpl in S. apply andb_prop in S as [C S].
  apply negb_true_iff in C.
  change (String c r +++ Re.tail_lit +++ post)
    with (String c (r +++ Re.tail_lit +++ post)).
  cbn [Re.nonspace_plus]. rewrite C.
  destruct r as [|c' r'].
  - change ("" +++ Re.tail_lit +++ post) with (Re.tail_lit +++ post).
    rewrite prefix_app. reflexivity.
  - rewrite IH; [reflexivity | discriminate | exact S].
Qed.

Lemma head_lit_sound s h r :
  Re.head_lit s = Some (h, r) ->
  exists c, (c = "C"%char \/ c = "S"%char)
            /\ h = "LICEN" +++ String c "E." /\ s = h +++ r.
Proof.
  unfold Re.head_lit. destruct (prefix "LICEN" s) eqn:P; [|discriminate].
  apply prefix_inv in P. simpl String.length in P.
  destruct (Str.drop 5 s) as [|c [|e [|d r']]]; try discriminate.
  destruct (Ascii.eqb c "C" || Ascii.eqb c "S") eqn:C; [|discriminate].
  destruct (Ascii.eqb_spec e "E") as [->|]; [|discriminate].
  destruct (Ascii.eqb_spec d ".") as [->|]; [|discriminate].
  simpl. intros H; injection H as <- <-.
  exists c. split; [|split; [reflexivity | exact P]].
  apply orb_prop in C as [C|C]; apply Ascii.eqb_eq in C; auto.
Qed.

Lemma head_lit_complete c r :
  c = "C"%char \/ c = "S"%char ->
  Re.head_lit ("LICEN" +++ String c "E." +++ r)
  = Some ("LICEN" +++ String c "E.", r).
Proof. intros [->| ->]; reflexivity. Qed.

Lemma match_here_sound s g :
  Re.match_here s = Some g ->
  licence_file_name g /\ exists post, s = g +++ Re.tail_lit +++ post.
Proof.
  unfold Re.match_here.
  destruct (Re.head_lit s) as [[h r]|] eqn:H; [|discriminate].
  destruct (Re.nonspace_plus r) as [m|] eqn:N; [|discriminate].
  intros E; injection E as <-.
  apply head_lit_sound in H as (c & C & -> & ->).
  apply nonspace_plus_sound in N as (M & S & post & ->).
  split.
  - exists c, m. rewrite str_app_assoc. auto.
  - exists post. now rewrite !str_app_assoc.
Qed.

Lemma match_here_complete g post :
  licence_file_name g ->
  Re.match_here (g +++ Re.tail_lit +++ post) = Some g.
Proof.
  intros (c & suf & -> & C & N & S). unfold Re.match_here.
  rewrite !str_app_assoc, (head_lit_complete c _ C).
  rewrite (nonspace_plus_complete suf post N S).
  now rewrite str_app_assoc.
Qed.

Lemma search_eq s :
  Re.search s =
  match Re.match_here s with
  | Some g => Some g
  | None => match s with "" => None | String _ r => Re.search r end
  end.
Proof. destruct s; reflexivity. Qed.

(** What [re.search] returns is a file name of the pattern that stands in
    the line before [" for details"]. *)
Lemma search_sound s g :
  Re.search s = Some g ->
  licence_file_name g
  /\ exists pre post, s = pre +++ g +++ Re.tail_lit +++ post.
Proof.
  induction s as [|x r IH]; rewrite search_eq.
  - destruct (Re.match_here "") eqn:M; [|discriminate].
    intros H; injection H as ->.
    apply match_here_sound in M as [L [post E]].
    split; [exact L | now exists "", post].
  - destruct (Re.match_here (String x r)) eqn:M.
    + intros H; injection H as ->.
      apply match_here_sound in M as [L [post E]].
      split; [exact L | now exists "", post].
    + intros H. destruct (IH H) as (L & pre & post & ->).
      split; [exact L | now exists (String x pre), post].
Qed.

(** [re.search] finds a match in every line that holds one. *)
Lemma search_complete pre g post :
  licence_file_name g ->
  exists g', Re.search (pre +++ g +++ Re.tail_lit +++ post) = Some g'.
Proof.
  intros L. induction pre as [|x r IH]; rewrite search_eq.
  - change ("" +++ g +++ Re.tail_lit +++ post)
      with (g +++ Re.tail_lit +++ post).
    rewrite (match_here_complete g post L). eauto.
  - destruct (Re.match_here (String x r +++ g +++ Re.tail_lit +++ post));
      [eauto | exact IH].
Qed.

(** The leftmost match is the one returned. *)
Lemma search_first g post :
  licence_file_name g ->
  Re.search (g +++ Re.tail_lit +++ post) = Some g.
Proof.
  intros L. rewrite search_eq. now rewrite (match_here_complete g post L).
Qed.

End Regex.

Section Licence.

Lemma process_licence_line st ss s key rest :
  key = "Licence" \/ key = "License" ->
  self_sections st = ss ++ [s] ->
  process_line st (key +++ ":" +++ rest)
  = Ok (mkLocals (self_header st)
          (ss ++ [set_licence_file
                    match Re.search (key +++ ":" +++ rest) with
                    | Some g => g
                    | None => licence_file s
                    end
                    (set_licence
                       (licence s
                        ++ [if Str.nonempty (Str.strip rest)
                            then Str.strip rest else "--"]) s)])
          LICENCE (entry st)).
Proof.
  intros K E.
  assert (recognizer key (Str.strip rest) (key +++ ":" +++ rest) st
          = Some (on_licence (Str.strip rest) (key +++ ":" +++ rest) st))
    as R by (destruct K as [-> | ->]; reflexivity).
  rewrite process_line_keyed, R
    by (destruct K as [-> | ->]; reflexivity).
  unfold on_licence.
  rewrite (modify_section_snoc _ (set_whence_type LICENCE st) ss s E).
  now destruct (Re.search (key +++ ":" +++ rest)).
Qed.

Lemma process_licence_text st ss s line :
  whence_type st = LICENCE ->
  is_delimiter line = false -> key_test is_recognized line = false ->
  self_sections st = ss ++ [s] ->
  process_line st line
  = Ok (mkLocals (self_header st)
          (ss ++ [set_licence (licence s ++ [line]) s]) LICENCE (entry st)).
Proof.
  intros W D R E. rewrite (process_line_free_text st line D R).
  unfold free_text. rewrite W. simpl.
  now rewrite (modify_section_snoc _ st ss s E), W.
Qed.

End Licence.

(** C7. A [Licence:] or [License:] line moves the loop to the licence state
    and appends the trimmed value, or ["--"] when that is empty, to the
    licence list of the current section; [licence_file] becomes the file
    name that the search of the pattern returns in the whole line, which is
    a name [LICENCE.x] or [LICENSE.x] standing before [" for details"], and
    which exists whenever the line holds such a name; without a match the
    field keeps its value.  A later line that no recognizer takes is
    appended to the licence list while the state is the licence state.  The
    two example lines give the licence list of the two texts and the file
    [LICENCE.foo]. *)
Theorem C7_licence_line_and_continuation :
  (forall (st : Locals) (ss : list DriverSection) (s : DriverSection)
          (key rest : string),
      key = "Licence" \/ key = "License" ->
      self_sections st = ss ++ [s] ->
      process_line st (key +++ ":" +++ rest)
      = Ok (mkLocals (self_header st)
              (ss ++ [set_licence_file
                        match Re.search (key +++ ":" +++ rest) with
                        | Some g => g
                        | None => licence_file s
                        end
                        (set_licence
                           (licence s
                            ++ [if Str.nonempty (Str.strip rest)
                                then Str.strip rest else "--"]) s)])
              LICENCE (entry st)))
  /\ (forall line g,
         Re.search line = Some g ->
         licence_file_name g
         /\ exists pre post, line = pre +++ g +++ " for details" +++ post)
  /\ (forall pre g post,
         licence_file_name g ->
         exists g', Re.search (pre +++ g +++ " for details" +++ post) = Some g')
  /\ (forall g post,
         licence_file_name g ->
         Re.search (g +++ " for details" +++ post) = Some g)
  /\ (forall (st : Locals) (ss : list DriverSection) (s : DriverSection)
             (line : string),
         whence_type st = LICENCE ->
         is_delimiter line = false ->
         key_test is_recognized line = false ->
         self_sections st = ss ++ [s] ->
         process_line st line
         = Ok (mkLocals (self_header st)
                 (ss ++ [set_licence (licence s ++ [line]) s])
                 LICENCE (entry st)))
  /\ load_whence new_Whence
       ["----------";
        "Licence: Redistributable. See LICENCE.foo for details.";
        "Some additional note."]
     = Ok (mkWhence []
             [mkSection "" "" ""
                ["Redistributable. See LICENCE.foo for details.";
                 "Some additional note."]
                "LICENCE.foo" [] []]).
Proof.
  split; [exact process_licence_line|].
  split; [exact search_sound|].
  split; [exact search_complete|].
  split; [exact search_first|].
  split; [exact process_licence_text | vm_compute; reflexivity].
Qed.

(** A [License:] line without a value and without a file name, then a line
    of free text, in the section of a driver. *)
Lemma C7_witness :
  let s := set_licence_file "LICENCE.old" new_Section in
  let st := mkLocals [] [s] NOTES None in
  process_line st "License:"
  = Ok (mkLocals [] [set_licence ["--"] s] LICENCE None)
  /\ process_line (mkLocals [] [set_licence ["--"] s] LICENCE None)
       "See LICENSE.txt for details"
     = Ok (mkLocals []
             [set_licence ["--"; "See LICENSE.txt for details"] s]
             LICENCE None)
  /\ licence_file_name "LICENSE.txt".
Proof.
  intros s st.
  destruct C7_licence_line_and_continuation as (H1 & H2 & _ & _ & H5 & _).
  split; [|split].
  - exact (H1 st [] s "License" "" (or_intror eq_refl) eq_refl).
  - exact (H5 (mkLocals [] [set_licence ["--"] s] LICENCE None) []
              (set_licence ["--"] s) "See LICENSE.txt for details"
              eq_refl eq_refl eq_refl eq_refl).
  - exact (proj1 (H2 "See LICENSE.txt for details" "LICENSE.txt" eq_refl)).
Defined.

(** ** Entry fields without a current entry *)

Section EntryFields.

Lemma free_text_entry line st st' :
  free_text line st = Ok st' -> entry st' = entry st.
Proof.
  unfold free_text.
  destruct (whence_type st); simpl;
    try (destruct (Str.nonempty line); simpl);
    intros H;
    first [ apply modify_section_ok in H as [-> _]; reflexivity
          | injection H as <-; reflexivity
          | discriminate ].
Qed.

(** Only the lines that make an entry assign the local [entry]. *)
Lemma process_line_entry st line st' :
  process_line st line = Ok st' ->
  key_test is_entry_key line = false -> entry st' = entry st.
Proof.
  unfold process_line, key_test, line_key.
  destruct (is_delimiter line).
  { intros H _; now injection H as <-. }
  destruct (split_key line) as [[key val]|];
    [|intros H _; now apply free_text_entry in H].
  unfold recognizer, is_entry_key, on_driver, on_licence.
  key_cases; intros H T; try discriminate;
    first [ apply modify_section_ok in H as [-> _]; reflexivity
          | apply modify_entry_ok in H as (i & j & _ & ->); reflexivity
          | now apply free_text_entry in H ].
Qed.

Lemma run_entry pre st st' :
  Forall (fun raw => key_test is_entry_key (Str.rstrip raw) = false) pre ->
  run st pre = Ok st' -> entry st' = entry st.
Proof.
  intros F; revert st; induction F as [|raw rest T _ IH]; intros st; simpl.
  - intros H; now injection H as <-.
  - destruct (process_line st (Str.rstrip raw)) as [e|st1] eqn:P; simpl;
      [discriminate|].
    intros R. rewrite (IH _ R). now apply process_line_entry in P.
Qed.

(** A line that assigns a field of the current entry, without one. *)
Lemma process_line_entry_unbound st line :
  key_test is_entry_field_key line = true -> entry st = None ->
  process_line st line = Raise (UnboundLocalError "entry").
Proof.
  unfold process_line, key_test, line_key.
  destruct (is_delimiter line); [discriminate|].
  destruct (split_key line) as [[key val]|]; [|discriminate].
  unfold recognizer, is_entry_field_key.
  key_cases; intros T E; try discriminate; now apply modify_entry_unbound.
Qed.

End EntryFields.

(** The failure of this manifest is the unbound local, not the
    failed-to-parse-line exception. *)
Lemma C8_counterexample :
  key_test is_entry_field_key "Version: 1" = true
  /\ load_whence new_Whence ["Version: 1"] = Raise (UnboundLocalError "entry")
  /\ load_whence new_Whence ["Version: 1"]
     <> Raise (FailedToParseLine "Version: 1").
Proof.
  split; [vm_compute; reflexivity|].
  split; [vm_compute; reflexivity | vm_compute; discriminate].
Qed.

(** C8, as the code has it.  When a [Version:], [Source:], [Info:] or
    [Origin:] line comes before any [File:], [RawFile:] or [Link:] line,
    [load_whence] returns no document and does not pass over the line: it
    raises an [UnboundLocalError], for the local [entry] when the loop
    reaches the line, and never the failed-to-parse-line exception. *)
Theorem C8_entry_field_before_entry_raises_unbound :
  forall (self : Whence) (pre : list string) (raw : string)
         (post : list string),
    Forall (fun l => key_test is_entry_key (Str.rstrip l) = false) pre ->
    key_test is_entry_field_key (Str.rstrip raw) = true ->
    (exists name,
        load_whence self (pre ++ raw :: post)
        = Raise (UnboundLocalError name))
    /\ (forall st, run (init_locals self) pre = Ok st ->
                   load_whence self (pre ++ raw :: post)
                   = Raise (UnboundLocalError "entry")).
Proof.
  intros self pre raw post F T.
  assert (forall st, run (init_locals self) pre = Ok st ->
                     load_whence self (pre ++ raw :: post)
                     = Raise (UnboundLocalError "entry")) as H.
  { intros st R. unfold load_whence. rewrite run_app, R. simpl.
    rewrite (process_line_entry_unbound st _ T); [reflexivity|].
    now rewrite (run_entry pre (init_locals self) st F R). }
  split; [|exact H].
  destruct (run (init_locals self) pre) as [e|st] eqn:R.
  - destruct (run_raise _ _ _ R) as [name ->]. exists name.
    unfold load_whence. now rewrite run_app, R.
  - eauto.
Qed.

(** A version line in the first section, after a driver line and a note. *)
Lemma C8_witness :
  load_whence new_Whence
    ["Title"; "----------"; "Driver: x - y"; "a note"; "Version: 1";
     "File: a.bin"]
  = Raise (UnboundLocalError "entry").
Proof.
  refine (proj2 (C8_entry_field_before_entry_raises_unbound new_Whence
                   ["Title"; "----------"; "Driver: x - y"; "a note"]
                   "Version: 1" ["File: a.bin"] _ eq_refl) _ eq_refl).
  repeat constructor.
Defined.

(** ** The entries of a section *)

Section Entries.

Lemma update_last_id {A : Type} (f : A -> A) (l : list A) :
  (forall x, f x = x) -> update_last f l = l.
Proof.
  intros H. induction l as [|x [|y q] IH]; simpl; try reflexivity.
  - now rewrite H.
  - simpl in IH. now rewrite IH.
Qed.

Lemma update_last_twice {A : Type} (f g : A -> A) (l : list A) :
  update_last g (update_last f l) = update_last (fun x => g (f x)) l.
Proof.
  induction l as [|x [|y q] IH]; simpl; try reflexivity.
  simpl in IH. rewrite <- IH. now destruct q.
Qed.

Lemma update_last_ext {A : Type} (f g : A -> A) (l : list A) :
  (forall x, f x = g x) -> update_last f l = update_last g l.
Proof.
  intros H. induction l as [|x [|y q] IH]; simpl; try reflexivity.
  - now rewrite H.
  - simpl in IH. now rewrite IH.
Qed.

Lemma free_text_ids line st st' :
  free_text line st = Ok st' ->
  section_ids (self_sections st') = section_ids (self_sections st).
Proof.
  unfold free_text, section_ids.
  destruct (whence_type st); simpl;
    try (destruct (Str.nonempty line); simpl);
    intros H;
    first [ apply modify_section_ok in H as [-> _]; simpl;
            apply map_update_last_id; reflexivity
          | injection H as <-; reflexivity
          | discriminate ].
Qed.

(** A line that is neither a delimiter nor an entry line leaves the
    entries of every section in place, with their type, path and target. *)
Lemma process_line_ids st line st' :
  process_line st line = Ok st' ->
  is_delimiter line = false -> key_test is_entry_key line = false ->
  section_ids (self_sections st') = section_ids (self_sections st).
Proof.
  unfold process_line, key_test, line_key. intros H D. rewrite D in *.
  revert H.
  destruct (split_key line) as [[key val]|];
    [|intros H _; now apply free_text_ids in H].
  unfold recognizer, is_entry_key, on_driver, on_licence.
  key_cases; intros H T; try discriminate;
    first [ apply modify_section_ok in H as [-> _]; simpl;
            apply map_update_last_id; intros x;
            try destruct (Re.search line); reflexivity
          | apply modify_entry_ok in H as (i & j & _ & ->); simpl;
            apply map_update_at_id; intros x; simpl;
            apply map_update_at_id; intros e; reflexivity
          | now apply free_text_ids in H ].
Qed.

(** An entry line appends its entry to the section that is current. *)
Lemma process_line_entry_ids st line st' :
  process_line st line = Ok st' ->
  is_delimiter line = false -> key_test is_entry_key line = true ->
  section_ids (self_sections st')
  = update_last (fun k => k ++ [line_entry_id line])
                (section_ids (self_sections st)).
Proof.
  unfold process_line, key_test, line_key, line_entry_id.
  intros H D. rewrite D in *. revert H.
  destruct (split_key line) as [[key val]|]; [|discriminate].
  unfold recognizer, is_entry_key, on_file, on_link.
  destruct (Str.partition " -> " val) as [p t].
  key_cases; intros H T; try discriminate;
    apply append_entry_ok in H as (_ & -> & _ & _);
    unfold section_ids; apply map_update_last; intros s; simpl;
    now rewrite map_app.
Qed.

Lemma run_ids lines st st' :
  run st lines = Ok st' ->
  section_ids (self_sections st')
  = update_last (fun k => k ++ chunk_ids (fst (section_lines lines)))
                (section_ids (self_sections st))
    ++ map chunk_ids (snd (section_lines lines)).
Proof.
  revert st; induction lines as [|raw rest IH]; intros st; simpl.
  - intros H; injection H as <-. rewrite app_nil_r.
    symmetry. apply update_last_id. intros k. apply app_nil_r.
  - destruct (process_line st (Str.rstrip raw)) as [e|st1] eqn:P; simpl;
      [discriminate|].
    intros R. rewrite (IH _ R). clear IH R.
    destruct (section_lines rest) as [h cs]. simpl.
    destruct (is_delimiter (Str.rstrip raw)) eqn:D; simpl.
    + rewrite (process_line_delimiter _ _ D) in P. injection P as <-.
      simpl. unfold section_ids at 1. rewrite map_app. simpl.
      rewrite update_last_snoc, <- app_assoc. simpl.
      f_equal. symmetry. apply update_last_id. intros k. apply app_nil_r.
    + f_equal. unfold chunk_ids at 2, entry_lines. simpl.
      destruct (key_test is_entry_key (Str.rstrip raw)) eqn:T.
      * rewrite (process_line_entry_ids _ _ _ P D T), update_last_twice.
        apply update_last_ext. intros k. now rewrite <- app_assoc.
      * now rewrite (process_line_ids _ _ _ P D T).
Qed.

Lemma stripped_sections_ids ss ss' :
  Forall2 stripped_section ss ss' -> section_ids ss' = section_ids ss.
Proof.
  induction 1 as [|s s' r r' H _ IH]; [reflexivity|].
  unfold section_ids in *. simpl. rewrite IH.
  destruct H as (_ & _ & _ & _ & -> & _). reflexivity.
Qed.

Lemma map_eq_Forall2 {A B C : Type} (f : A -> C) (g : B -> C) l1 l2 :
  map f l1 = map g l2 -> Forall2 (fun a b => f a = g b) l1 l2.
Proof.
  revert l2; induction l1 as [|a r IH]; intros [|b q]; simpl;
    try discriminate; intros H; constructor.
  - now injection H.
  - apply IH. now injection H.
Qed.

End Entries.

(** C9. In the document that [load_whence] returns, the sections are those
    of the delimiters of the manifest, in order, and the entries of each
    section are those of the [File:], [RawFile:] and [Link:] lines between
    its delimiter and the next, one entry for one line and in the order of
    the lines. *)
Theorem C9_entries_follow_the_entry_lines :
  forall (self : Whence) (lines : list string) (doc : Whence),
    load_whence self lines = Ok doc ->
    section_ids (sections doc) = map chunk_ids (snd (section_lines lines))
    /\ Forall2 (fun s chunk =>
                  List.length (entries s) = List.length (entry_lines chunk)
                  /\ map entry_id (entries s)
                     = map line_entry_id (entry_lines chunk))
               (sections doc) (snd (section_lines lines)).
Proof.
  intros self lines doc H.
  destruct (load_whence_ok self lines doc H) as (st & R & _ & M).
  apply mapM_strip_section_ok, stripped_sections_ids in M.
  apply run_ids in R. simpl in R.
  assert (section_ids (sections doc)
          = map chunk_ids (snd (section_lines lines))) as E
      by now rewrite M, R.
  split; [exact E|].
  apply map_eq_Forall2 in E.
  clear - E. induction E as [|s chunk r q Hs _ IH]; [constructor|].
  constructor; [|exact IH].
  split; [|exact Hs].
  apply (f_equal (@List.length _)) in Hs. unfold chunk_ids in Hs.
  now rewrite !length_map in Hs.
Qed.

(** Two sections: a file with a version and a link, then a raw file. *)
Lemma C9_witness :
  let lines := ["Title"; "----------"; "Driver: d"; "File: a.bin";
                "Version: 1"; "Link: b.bin -> a.bin"; "Licence: GPL";
                "-----------"; "RawFile: c.bin"] in
  let doc :=
    mkWhence ["Title"]
      [mkSection "d" "d" "" ["GPL"] "" []
         [mkEntry "File" "a.bin" "" [] "1" "" "";
          new_Entry "Link" "b.bin" "a.bin"];
       mkSection "" "" "" [] "" [] [new_Entry "RawFile" "c.bin" ""]] in
  load_whence new_Whence lines = Ok doc
  /\ section_ids (sections doc) = map chunk_ids (snd (section_lines lines))
  /\ Forall2 (fun s chunk =>
                List.length (entries s) = List.length (entry_lines chunk)
                /\ map entry_id (entries s)
                   = map line_entry_id (entry_lines chunk))
             (sections doc) (snd (section_lines lines)).
Proof.
  intros lines doc.
  assert (load_whence new_Whence lines = Ok doc) as H
      by (vm_compute; reflexivity).
  split; [exact H|].
  exact (C9_entries_follow_the_entry_lines new_Whence lines doc H).
Defined.

(** ** [save_yaml] *)

Section SaveYaml.

Lemma remove_empty_keys_truthy d : all_truthy (remove_empty_keys d) = true.
Proof.
  unfold all_truthy, remove_empty_keys.
  induction d as [|kv r IH]; simpl; [reflexivity|].
  destruct (truthy (snd kv)) eqn:T; simpl; [now rewrite T|exact IH].
Qed.

Lemma setitem_truthy key v d :
  truthy v = true -> all_truthy d = true ->
  all_truthy (setitem key v d) = true.
Proof.
  unfold all_truthy. intros V.
  induction d as [|[k w] r IH]; simpl; [now rewrite V|].
  intros H. apply andb_prop in H as [H1 H2].
  destruct (String.eqb k key); simpl.
  - now rewrite V, H2.
  - now rewrite H1, IH.
Qed.

Lemma mapM_prune_entry es :
  mapM prune_entry (map (fun e => VDict (asdict_Entry e)) es)
  = Ok (map pruned_Entry es).
Proof.
  induction es as [|e r IH]; [reflexivity|].
  cbn [map mapM]. rewrite IH. reflexivity.
Qed.

(** Line 172 reads [s["entries"]] after line 171 has deleted the key of
    a section without entries. *)
Lemma prune_section_asdict s :
  prune_section (VDict (asdict_Section s))
  = match entries s with
    | [] => Raise (KeyError "entries")
    | _ :: _ => Ok (pruned_Section s)
    end.
Proof.
  unfold prune_section, pruned_Section.
  cbn [as_dict bind].
  destruct s as [d m de l lf n es]; cbn [entries].
  destruct es as [|e es].
  - destruct d, m, de, l, lf, n; reflexivity.
  - pose proof (mapM_prune_entry (e :: es)) as M.
    unfold asdict_Section. cbn [entries].
    remember (map pruned_Entry (e :: es)) as P eqn:HP.
    remember (map (fun e => VDict (asdict_Entry e)) (e :: es)) as L eqn:HL.
    destruct L as [|x xs]; [discriminate HL|]. clear HL HP.
    destruct d, m, de, l, lf, n; cbn -[mapM prune_entry];
      rewrite M; reflexivity.
Qed.

Lemma mapM_prune_section_ok ss :
  Forall (fun s => entries s <> []) ss ->
  mapM prune_section (map (fun s => VDict (asdict_Section s)) ss)
  = Ok (map pruned_Section ss).
Proof.
  induction 1 as [|s r N _ IH]; [reflexivity|].
  cbn [map mapM]. rewrite prune_section_asdict, IH.
  destruct (entries s); [now elim N | reflexivity].
Qed.

Lemma mapM_prune_section_raise ss :
  Exists (fun s => entries s = []) ss ->
  mapM prune_section (map (fun s => VDict (asdict_Section s)) ss)
  = Raise (KeyError "entries").
Proof.
  induction 1 as [s r E | s r _ IH]; cbn [map mapM];
    rewrite prune_section_asdict.
  - now rewrite E.
  - rewrite IH. now destruct (entries s).
Qed.

Lemma pruned_Entry_truthy e : value_all_truthy (pruned_Entry e) = true.
Proof. apply remove_empty_keys_truthy. Qed.

Lemma pruned_Section_truthy s :
  entries s <> [] -> value_all_truthy (pruned_Section s) = true.
Proof.
  intros N. unfold pruned_Section, value_all_truthy.
  apply setitem_truthy; [|apply remove_empty_keys_truthy].
  destruct (entries s); [now elim N | reflexivity].
Qed.

End SaveYaml.

(** C10, on the code.  With [remove_empty] the dump fails with
    [KeyError: 'entries'] as soon as one section has no entry: line 171
    deletes the key of the empty list and line 172 reads it.  When every
    section has an entry, the dictionary handed to [yaml.dump] keeps the
    keys [header] and [sections], and no section mapping and no entry
    mapping in it has an empty value.  Without [remove_empty] every field
    is kept. *)
Theorem C10_remove_empty_fails_on_section_without_entries :
  forall (w : Whence),
    (Exists (fun s => entries s = []) (sections w) ->
     save_yaml w true = Raise (KeyError "entries"))
    /\ (Forall (fun s => entries s <> []) (sections w) ->
        save_yaml w true
        = Ok [("header", strs (header w));
              ("sections", VList (map pruned_Section (sections w)))]
        /\ Forall (fun s =>
                     value_all_truthy (pruned_Section s) = true
                     /\ Forall (fun e => value_all_truthy (pruned_Entry e)
                                         = true) (entries s))
                  (sections w))
    /\ save_yaml w false = Ok (asdict w).
Proof.
  intros w. split; [|split; [|reflexivity]].
  - intros E. unfold save_yaml, asdict. cbn [getitem String.eqb Ascii.eqb
      Bool.eqb bind as_list].
    now rewrite (mapM_prune_section_raise _ E).
  - intros F. split.
    + unfold save_yaml, asdict. cbn [getitem String.eqb Ascii.eqb
        Bool.eqb bind as_list].
      now rewrite (mapM_prune_section_ok _ F).
    + induction F as [|s r N _ IH]; constructor; [|exact IH].
      split; [now apply pruned_Section_truthy|].
      apply Forall_forall. intros e _. apply pruned_Entry_truthy.
Qed.

(** The manifest of a section with a driver and a licence and no file: it
    is read, and it is dumped in full, but not with [remove_empty]. *)
Lemma C10_witness :
  let doc := mkWhence ["Title"] [mkSection "x" "x" "" ["GPL"] "" [] []] in
  load_whence new_Whence ["Title"; "----------"; "Driver: x"; "Licence: GPL"]
  = Ok doc
  /\ save_yaml doc true = Raise (KeyError "entries")
  /\ save_yaml doc false = Ok (asdict doc).
Proof.
  intros doc. split; [vm_compute; reflexivity|].
  destruct (C10_remove_empty_fails_on_section_without_entries doc)
    as (H1 & _ & H3).
  split; [|exact H3].
  apply H1. constructor. reflexivity.
Defined.

(** * Further properties of the code *)

(** ** The helper [strip], as a function *)

Section StripFunction.

Lemma strip_fixed l : no_blank_ends l -> strip l = Ok l.
Proof.
  intros N. destruct l as [|x r]; [reflexivity|].
  destruct (N x r eq_refl) as [X L].
  unfold strip. cbn [strip_leading].
  destruct (String.eqb_spec x "") as [E|_]; [now elim X|].
  cbn [bind]. rewrite strip_trailing_cons.
  destruct (String.eqb_spec (last r x) "") as [E|_]; [now elim L|].
  reflexivity.
Qed.

Lemma all_blank_dec l : all_blank l \/ ~ all_blank l.
Proof.
  induction l as [|x r [IH|IH]].
  - left; constructor.
  - destruct (String.eqb_spec x "") as [->|N].
    + left; now constructor.
    + right; intros B; inversion B; subst; now elim N.
  - right; intros B; inversion B; subst; now elim IH.
Qed.

End StripFunction.

(** X1. [strip] raises exactly on the non-empty lists that hold empty
    strings only, and then it raises [IndexError]; on every other list it
    returns. *)
Theorem X1_strip_raises_exactly_on_blank_lists :
  forall (obj : list string),
    (strip obj = Raise IndexError <-> obj <> [] /\ all_blank obj)
    /\ (forall e, strip obj = Raise e -> e = IndexError)
    /\ (obj = [] \/ ~ all_blank obj -> exists l, strip obj = Ok l).
Proof.
  intros obj. split; [split|split].
  - intros H. now apply strip_raise in H.
  - intros [N B]. now apply strip_blank.
  - intros e H. now apply strip_raise in H.
  - intros H. destruct (strip obj) as [e|l] eqn:S; [|eauto].
    apply strip_raise in S as (_ & N & B). destruct H as [H|H]; contradiction.
Qed.

(** A list of three empty strings, and a list with one line among them. *)
Lemma X1_witness :
  strip [""; ""; ""] = Raise IndexError
  /\ exists l, strip [""; "a"; ""] = Ok l.
Proof.
  destruct (X1_strip_raises_exactly_on_blank_lists [""; ""; ""])
    as ([_ H] & _).
  destruct (X1_strip_raises_exactly_on_blank_lists [""; "a"; ""])
    as (_ & _ & K).
  split.
  - apply H. split; [discriminate | repeat constructor].
  - apply K. right. intros B. inversion B as [|? ? _ B']. subst.
    inversion B' as [|? ? E _]. discriminate E.
Defined.

(** X2. [strip] changes nothing in a list that neither begins nor ends with
    an empty string, and stripping twice is stripping once. *)
Theorem X2_strip_is_idempotent :
  forall (obj l : list string),
    (no_blank_ends obj -> strip obj = Ok obj)
    /\ (strip obj = Ok l -> strip l = Ok l).
Proof.
  intros obj l. split; [apply strip_fixed|].
  intros H. apply strip_ok in H as [_ N]. now apply strip_fixed.
Qed.

Lemma X2_witness :
  strip ["a"; ""; "b"] = Ok ["a"; ""; "b"]
  /\ strip ["a"; "b"] = Ok ["a"; "b"].
Proof.
  split.
  - apply (X2_strip_is_idempotent ["a"; ""; "b"] []).
    intros x r E. injection E as <- <-. split; discriminate.
  - apply (X2_strip_is_idempotent [""; "a"; "b"; ""] ["a"; "b"]).
    reflexivity.
Defined.

(** ** The exceptions of [load_whence] *)

Section Exceptions.

Lemma recognizer_raise_name key val line st e :
  recognizer key val line st = Some (Raise e) ->
  e = UnboundLocalError "section" \/ e = UnboundLocalError "entry".
Proof.
  unfold recognizer, on_driver, on_file, on_licence.
  key_cases; simpl; intros H; try discriminate; injection H as H;
    first [ apply modify_section_raise in H; now left
          | apply modify_entry_raise in H; now right
          | apply append_entry_raise in H; now left
          | apply on_link_raise in H; now left ].
Qed.

Lemma free_text_raise_name line st e :
  free_text line st = Raise e -> e = UnboundLocalError "section".
Proof.
  unfold free_text.
  destruct (whence_type st); simpl; try discriminate;
    try (intros H; now apply modify_section_raise in H).
  destruct (Str.nonempty line); simpl; [|discriminate].
  intros H; now apply modify_section_raise in H.
Qed.

Lemma process_line_raise_name st line e :
  process_line st line = Raise e ->
  e = UnboundLocalError "section" \/ e = UnboundLocalError "entry".
Proof.
  unfold process_line. destruct (is_delimiter line); [discriminate|].
  destruct (split_key line) as [[key val]|];
    [|intros H; left; now apply free_text_raise_name in H].
  destruct (recognizer key val line st) as [r|] eqn:R;
    [|intros H; left; now apply free_text_raise_name in H].
  intros ->. eapply recognizer_raise_name; eauto.
Qed.

Lemma run_raise_name lines st e :
  run st lines = Raise e ->
  e = UnboundLocalError "section" \/ e = UnboundLocalError "entry".
Proof.
  revert st; induction lines as [|raw rest IH]; intros st; simpl;
    [discriminate|].
  destruct (process_line st (Str.rstrip raw)) as [e'|st'] eqn:P; simpl.
  - intros H; injection H as <-. eapply process_line_raise_name; eauto.
  - apply IH.
Qed.

End Exceptions.



(** ** The notes and licence lists never fail the trimming pass *)

Section ListsInvariant.

Lemma head_nonempty_snoc l x :
  head_nonempty l -> (l = [] -> x <> "") -> head_nonempty (l ++ [x]).
Proof. destruct l; simpl; auto. Qed.

Lemma Forall_update_last {A : Type} (P : A -> Prop) (f : A -> A) d l :
  Forall P l -> (l <> [] -> P (f (last l d))) -> Forall P (update_last f l).
Proof.
  induction l as [|x [|y q] IH]; intros F H.
  - constructor.
  - simpl. constructor; [|constructor]. apply H. discriminate.
  - rewrite update_last_cons. inversion F; subst.
    constructor; [assumption|]. apply IH; [assumption|].
    intros _. apply H. discriminate.
Qed.

Lemma last_update_last {A : Type} (f : A -> A) d l :
  l <> [] -> last (update_last f l) d = f (last l d).
Proof.
  intros N. destruct (snoc_cases l) as [->|(q & x & ->)]; [now elim N|].
  now rewrite update_last_snoc, !last_snoc.
Qed.

Lemma append_line_invariant (N : list (list string)) (x : string) :
  N <> [] -> Forall head_nonempty N -> (last N [] = [] -> x <> "") ->
  Forall head_nonempty (update_last (fun n => n ++ [x]) N)
  /\ last (update_last (fun n => n ++ [x]) N) [] <> [].
Proof.
  intros NE F H. split.
  - apply Forall_update_last with (d := []); [exact F|].
    intros _. apply head_nonempty_snoc; [|exact H].
    destruct (snoc_cases N) as [->|(q & n & ->)]; [now elim NE|].
    rewrite last_snoc. apply Forall_app in F as [_ F]. now inversion F.
  - rewrite last_update_last by exact NE. now destruct (last N []).
Qed.

Lemma map_nonempty {A B : Type} (f : A -> B) l : l <> [] -> map f l <> [].
Proof. destruct l; simpl; [auto | discriminate]. Qed.

Lemma licence_recognizer_section key val line st st' :
  is_licence_key key = true ->
  recognizer key val line st = Some (Ok st') -> self_sections st <> [].
Proof.
  unfold recognizer, is_licence_key, on_licence.
  key_cases; intros K H; try discriminate; injection H as H;
    now apply modify_section_ok in H as [_ H].
Qed.

Lemma process_line_lists st line st' :
  process_line st line = Ok st' -> lists_invariant st -> lists_invariant st'.
Proof.
  intros P (IN & IL & HN & HL). destruct (is_delimiter line) eqn:D.
  { rewrite (process_line_delimiter _ _ D) in P. injection P as <-.
    unfold lists_invariant; simpl. rewrite !map_app. simpl.
    repeat split; try discriminate;
      apply Forall_app; split; auto; repeat constructor. }
  destruct (key_test is_recognized line) eqn:R.
  - unfold key_test, line_key in R. rewrite D in R.
    destruct (split_key line) as [[key val]|] eqn:S; [|discriminate].
    destruct (process_line_recognized st line key val D S R) as (r & Hr & E).
    rewrite P in E. rewrite <- E in Hr.
    pose proof (recognizer_frame _ _ _ _ _ Hr) as (_ & N & H3 & H4).
    unfold lists_invariant. rewrite N.
    destruct (is_licence_key key) eqn:K.
    + destruct (H4 eq_refl) as [T L]. rewrite T, L.
      pose proof (licence_recognizer_section _ _ _ _ _ K Hr) as NE.
      assert (last (map licence (self_sections st)) [] = [] ->
              (if Str.nonempty val then val else "--") <> "") as Hx
          by (intros _; destruct val; simpl; discriminate).
      destruct (append_line_invariant _ _ (map_nonempty licence _ NE) IL Hx)
        as [A1 A2].
      repeat split; auto; discriminate.
    + destruct (H3 eq_refl) as [T L]. rewrite T, L. auto.
  - rewrite (process_line_free_text _ _ D R) in P. unfold free_text in P.
    unfold lists_invariant.
    destruct (whence_type st) eqn:W; simpl in P.
    + injection P as <-. simpl. repeat split; auto; discriminate.
    + destruct (Str.nonempty line) eqn:L; simpl in P.
      * apply modify_section_ok in P as [-> NE]. simpl in *.
        rewrite (map_update_last notes _ (fun n => n ++ [line]))
          by reflexivity.
        rewrite (map_update_last_id licence) by reflexivity.
        assert (last (map notes (self_sections st)) [] = [] -> line <> "")
          as Hx by (intros _; now apply nonempty_true).
        destruct (append_line_invariant _ _ (map_nonempty notes _ NE) IN Hx)
          as [A1 A2].
        repeat split; auto; discriminate.
      * injection P as <-. rewrite W. repeat split; auto; discriminate.
    + apply modify_section_ok in P as [-> NE]. simpl in *.
      rewrite (map_update_last notes _ (fun n => n ++ [line]))
        by reflexivity.
      rewrite (map_update_last_id licence) by reflexivity.
      assert (last (map notes (self_sections st)) [] = [] -> line <> "")
        as Hx by (intros E; now elim (HN eq_refl)).
      destruct (append_line_invariant _ _ (map_nonempty notes _ NE) IN Hx)
        as [A1 A2].
      repeat split; auto; discriminate.
    + apply modify_section_ok in P as [-> NE]. simpl in *. rewrite W.
      rewrite (map_update_last licence _ (fun n => n ++ [line]))
        by reflexivity.
      rewrite (map_update_last_id notes) by reflexivity.
      assert (last (map licence (self_sections st)) [] = [] -> line <> "")
        as Hx by (intros E; now elim (HL eq_refl)).
      destruct (append_line_invariant _ _ (map_nonempty licence _ NE) IL Hx)
        as [A1 A2].
      repeat split; auto; discriminate.
Qed.

Lemma run_lists lines st st' :
  run st lines = Ok st' -> lists_invariant st -> lists_invariant st'.
Proof.
  revert st; induction lines as [|raw rest IH]; intros st; simpl.
  - intros H; now injection H as <-.
  - destruct (process_line st (Str.rstrip raw)) as [e|st1] eqn:P; simpl;
      [discriminate|].
    intros R I. apply (IH _ R). now apply process_line_lists in P.
Qed.

Lemma init_lists self : lists_invariant (init_locals self).
Proof. repeat split; try constructor; discriminate. Qed.

(** [strip] removes nothing but the empty strings at the end of a list
    that does not begin with one. *)
Lemma strip_head_nonempty l :
  head_nonempty l -> exists l' b, strip l = Ok l' /\ l = l' ++ repeat "" b.
Proof.
  destruct l as [|x r]; simpl.
  - intros _. exists [], 0. auto.
  - intros X. destruct (strip_head_ok x r X) as [l' S].
    pose proof (strip_ok _ _ S) as [(a & b & E) _].
    exists l', b. split; [exact S|].
    destruct a as [|a]; [exact E|]. simpl in E. injection E as E _.
    now elim X.
Qed.

Lemma mapM_strip_section_lists ss :
  Forall head_nonempty (map notes ss) ->
  Forall head_nonempty (map licence ss) ->
  exists ss',
    mapM strip_section ss = Ok ss'
    /\ Forall2 (fun s s' =>
                  (exists a, notes s = notes s' ++ repeat "" a)
                  /\ (exists b, licence s = licence s' ++ repeat "" b)
                  /\ entries s' = entries s /\ driver s' = driver s
                  /\ module s' = module s /\ description s' = description s
                  /\ licence_file s' = licence_file s) ss ss'.
Proof.
  induction ss as [|s r IH]; simpl; intros FN FL.
  - exists []. split; [reflexivity | constructor].
  - inversion FN as [|? ? HN FN']; inversion FL as [|? ? HL FL']; subst.
    destruct (IH FN' FL') as (r' & M & F).
    destruct (strip_head_nonempty _ HL) as (l' & b & SL & EL).
    destruct (strip_head_nonempty _ HN) as (n' & a & SN & EN).
    exists (set_notes n' (set_licence l' s) :: r').
    unfold strip_section at 1. rewrite SL, SN, M. simpl.
    split; [reflexivity|]. constructor; [|exact F].
    simpl. repeat split; eauto.
Qed.

End ListsInvariant.

(** X4. The loop keeps every notes list and every licence list free of an
    empty first line, so the trimming pass never fails on a section: it
    removes only the empty lines at the end of these lists, and
    [load_whence] returns or raises exactly as [strip] does on the header
    that the loop collected. *)
Theorem X4_sections_never_fail_the_trimming_pass :
  forall (self : Whence) (lines : list string) (st : Locals),
    run (init_locals self) lines = Ok st ->
    exists ss,
      mapM strip_section (self_sections st) = Ok ss
      /\ Forall2 (fun s s' =>
                    (exists a, notes s = notes s' ++ repeat "" a)
                    /\ (exists b, licence s = licence s' ++ repeat "" b)
                    /\ entries s' = entries s /\ driver s' = driver s
                    /\ module s' = module s
                    /\ description s' = description s
                    /\ licence_file s' = licence_file s)
                 (self_sections st) ss
      /\ load_whence self lines
         = (h <- strip (self_header st) ;; Ok (mkWhence h ss)).
Proof.
  intros self lines st R.
  pose proof (run_lists _ _ _ R (init_lists self)) as (FN & FL & _).
  destruct (mapM_strip_section_lists _ FN FL) as (ss & M & F).
  exists ss. split; [exact M|]. split; [exact F|].
  unfold load_whence. rewrite R. simpl.
  destruct (strip (self_header st)); simpl; [reflexivity|].
  now rewrite M.
Qed.

(** A section whose notes and licence end with blank lines, under a blank
    header: the sections are trimmed, the header fails. *)
Lemma X4_witness :
  let lines := [""; "----------"; ""; "note"; ""; "Licence: GPL"; ""] in
  exists st ss,
    run (init_locals new_Whence) lines = Ok st
    /\ mapM strip_section (self_sections st) = Ok ss
    /\ load_whence new_Whence lines
       = (h <- strip (self_header st) ;; Ok (mkWhence h ss))
    /\ load_whence new_Whence lines = Raise IndexError.
Proof.
  intros lines.
  destruct (run (init_locals new_Whence) lines) as [e|st] eqn:R;
    [vm_compute in R; discriminate R|].
  destruct (X4_sections_never_fail_the_trimming_pass new_Whence lines st R)
    as (ss & M & _ & L).
  exists st, ss. split; [reflexivity|]. split; [exact M|].
  split; [exact L | vm_compute; reflexivity].
Defined.

(** ** The header *)

Section Header.

Lemma recognizer_header_state key val line st :
  self_sections st = [] -> entry st = None -> is_recognized key = true ->
  exists e, recognizer key val line st = Some (Raise e).
Proof.
  unfold recognizer, is_recognized, recognized_keys, on_driver, on_file,
    on_link, on_licence, modify_section, modify_entry, append_entry.
  cbn [existsb self_sections entry set_whence_type].
  intros S E. destruct (Str.partition " -> " val) as [p t].
  rewrite S, E. key_cases; intros R; try discriminate; eauto.
Qed.

(** In the header state no keyed line passes. *)
Lemma process_line_header st line st' :
  whence_type st = HEADER -> self_sections st = [] -> entry st = None ->
  process_line st line = Ok st' ->
  (is_delimiter line = true /\ st' = start_section st)
  \/ (is_free_text line = true
      /\ st' = mkLocals (self_header st ++ [line]) [] HEADER None).
Proof.
  intros W S E P. unfold is_free_text. destruct (is_delimiter line) eqn:D.
  { left. rewrite (process_line_delimiter _ _ D) in P. now injection P. }
  right. destruct (key_test is_recognized line) eqn:R.
  - unfold key_test, line_key in R. rewrite D in R.
    destruct (split_key line) as [[key val]|] eqn:K; [|discriminate].
    destruct (process_line_recognized st line key val D K R) as (r & Hr & Q).
    destruct (recognizer_header_state key val line st S E R) as [e He].
    congruence.
  - split; [reflexivity|].
    rewrite (process_line_free_text _ _ D R) in P. unfold free_text in P.
    rewrite W in P. simpl in P. injection P as <-. now rewrite S, E.
Qed.

Lemma section_lines_cons raw rest :
  section_lines (raw :: rest)
  = if is_delimiter (Str.rstrip raw)
    then ([], fst (section_lines rest) :: snd (section_lines rest))
    else (Str.rstrip raw :: fst (section_lines rest),
          snd (section_lines rest)).
Proof.
  simpl. destruct (section_lines rest).
  now destruct (is_delimiter (Str.rstrip raw)).
Qed.

Lemma run_header lines st st' :
  whence_type st = HEADER -> self_sections st = [] -> entry st = None ->
  run st lines = Ok st' ->
  self_header st' = self_header st ++ fst (section_lines lines)
  /\ Forall (fun l => is_free_text l = true) (fst (section_lines lines)).
Proof.
  revert st; induction lines as [|raw rest IH]; intros st W S E.
  - simpl. intros H; injection H as <-. rewrite app_nil_r. auto.
  - cbn [run]. rewrite section_lines_cons.
    destruct (process_line st (Str.rstrip raw)) as [e|st1] eqn:P;
      cbn [bind]; [discriminate|].
    intros R.
    destruct (process_line_header _ _ _ W S E P) as [[D ->] | [F ->]].
    + rewrite D. cbn [fst]. rewrite app_nil_r. split; [|constructor].
      apply run_after_header in R; [exact R | discriminate].
    + pose proof F as F0. unfold is_free_text in F.
      apply andb_prop in F as [D F']. apply negb_true_iff in D.
      rewrite D. cbn [fst].
      destruct (IH (mkLocals (self_header st ++ [Str.rstrip raw]) []
                            HEADER None) eq_refl eq_refl eq_refl R)
        as [H1 H2].
      cbn [self_header] in H1. split.
      * now rewrite H1, <- app_assoc.
      * constructor; [exact F0 | exact H2].
Qed.

End Header.

(** X5. The header of the document that [load_whence] returns is [strip]
    of the header that the object had, followed by the lines of the
    manifest before its first section delimiter, trimmed at the right: all
    of these lines, in order, and nothing else. *)
Theorem X5_header_is_the_lines_before_the_first_delimiter :
  forall (self : Whence) (lines : list string) (doc : Whence),
    load_whence self lines = Ok doc ->
    strip (header self ++ fst (section_lines lines)) = Ok (header doc).
Proof.
  intros self lines doc H.
  destruct (load_whence_ok self lines doc H) as (st & R & S & _).
  destruct (run_header lines (init_locals self) st eq_refl eq_refl eq_refl R)
    as [E _].
  simpl in E. now rewrite <- E.
Qed.

(** A header of two lines with a blank line between them, read into an
    object that has a header line already. *)
Lemma X5_witness :
  strip (["Old"] ++ fst (section_lines ["A  "; ""; "B"; ""; "----------";
                                         "File: x"]))
  = Ok ["Old"; "A"; ""; "B"].
Proof.
  exact (X5_header_is_the_lines_before_the_first_delimiter
           (mkWhence ["Old"] [])
           ["A  "; ""; "B"; ""; "----------"; "File: x"]
           (mkWhence ["Old"; "A"; ""; "B"]
              [mkSection "" "" "" [] "" [] [new_Entry "File" "x" ""]])
           eq_refl).
Defined.

(** X6. A manifest with a keyed line before its first section delimiter is
    never read: [load_whence] raises the [UnboundLocalError] of [section]
    or of [entry], whatever the key. *)
Theorem X6_keyed_line_before_first_delimiter_raises :
  forall (self : Whence) (lines : list string),
    Exists (fun l => key_test is_recognized l = true)
           (fst (section_lines lines)) ->
    load_whence self lines = Raise (UnboundLocalError "section")
    \/ load_whence self lines = Raise (UnboundLocalError "entry").
Proof.
  intros self lines X. unfold load_whence.
  destruct (run (init_locals self) lines) as [e|st] eqn:R; simpl.
  - destruct (run_raise_name _ _ _ R) as [-> | ->]; auto.
  - destruct (run_header lines (init_locals self) st eq_refl eq_refl eq_refl R)
      as [_ F].
    apply Exists_exists in X as (l & I & K).
    rewrite Forall_forall in F. specialize (F l I).
    unfold is_free_text in F. rewrite K in F.
    apply andb_prop in F as [_ F]. discriminate F.
Qed.

(** A licence line in the header of a manifest. *)
Lemma X6_witness :
  load_whence new_Whence ["Title"; "Licence: GPL"; "----------"]
  = Raise (UnboundLocalError "section").
Proof.
  destruct (X6_keyed_line_before_first_delimiter_raises new_Whence
              ["Title"; "Licence: GPL"; "----------"]) as [H|H].
  - right. left. reflexivity.
  - exact H.
  - discriminate H.
Defined.

(** ** The notes of a section *)

Section Notes.

Lemma set_notes_same s : set_notes (notes s) s = s.
Proof. now destruct s. Qed.

Lemma process_line_note st ss s line :
  is_free_text line = true -> self_sections st = ss ++ [s] ->
  whence_type st = NOTES \/ (whence_type st = SECTION /\ line <> "") ->
  process_line st line
  = Ok (mkLocals (self_header st) (ss ++ [set_notes (notes s ++ [line]) s])
                 NOTES (entry st)).
Proof.
  unfold is_free_text. intros F E W.
  apply andb_prop in F as [D R]. apply negb_true_iff in D, R.
  rewrite (process_line_free_text st line D R). unfold free_text.
  destruct W as [W | [W L]]; rewrite W; simpl.
  - now rewrite (modify_section_snoc _ (set_whence_type NOTES st) ss s E).
  - apply nonempty_true in L. rewrite L.
    now rewrite (modify_section_snoc _ (set_whence_type NOTES st) ss s E).
Qed.

Lemma process_line_blank_section st :
  whence_type st = SECTION -> process_line st "" = Ok st.
Proof.
  intros W. unfold process_line, free_text; simpl. now rewrite W.
Qed.

Lemma run_notes chunk st ss s :
  whence_type st = NOTES -> self_sections st = ss ++ [s] ->
  Forall (fun raw => is_free_text (Str.rstrip raw) = true) chunk ->
  run st chunk
  = Ok (mkLocals (self_header st)
          (ss ++ [set_notes (notes s ++ map Str.rstrip chunk) s])
          NOTES (entry st)).
Proof.
  intros W E F. revert st s W E.
  induction F as [|raw rest FT _ IH]; intros st s W E.
  - simpl. rewrite app_nil_r, set_notes_same, <- E, <- W. now destruct st.
  - cbn [run map].
    rewrite (process_line_note st ss s _ FT E (or_introl W)). cbn [bind].
    rewrite (IH (mkLocals (self_header st)
                   (ss ++ [set_notes (notes s ++ [Str.rstrip raw]) s])
                   NOTES (entry st))
                (set_notes (notes s ++ [Str.rstrip raw]) s)
                eq_refl eq_refl).
    simpl. now rewrite <- app_assoc.
Qed.

Lemma run_section chunk st ss s :
  whence_type st = SECTION -> self_sections st = ss ++ [s] ->
  Forall (fun raw => is_free_text (Str.rstrip raw) = true) chunk ->
  run st chunk
  = Ok (mkLocals (self_header st)
          (ss ++ [set_notes (notes s ++ skip_blank (map Str.rstrip chunk)) s])
          match skip_blank (map Str.rstrip chunk) with
          | [] => SECTION
          | _ :: _ => NOTES
          end
          (entry st)).
Proof.
  intros W E F. revert st W E.
  induction F as [|raw rest FT F IH]; intros st W E.
  - simpl. rewrite app_nil_r, set_notes_same, <- E, <- W. now destruct st.
  - cbn [run map skip_blank].
    destruct (String.eqb_spec (Str.rstrip raw) "") as [B|B].
    + rewrite B, (process_line_blank_section st W). cbn [bind].
      now apply IH.
    + rewrite (process_line_note st ss s _ FT E (or_intror (conj W B))).
      cbn [bind].
      rewrite (run_notes rest
                 (mkLocals (self_header st)
                    (ss ++ [set_notes (notes s ++ [Str.rstrip raw]) s])
                    NOTES (entry st))
                 ss (set_notes (notes s ++ [Str.rstrip raw]) s)
                 eq_refl eq_refl F).
      simpl. now rewrite <- app_assoc.
Qed.

End Notes.

(** X7. The notes of a section.  When the lines that follow a section
    delimiter are free text, the notes that the loop collects for the new
    section are these lines, trimmed at the right, from the first one that
    is not empty: the blank lines before it are dropped, those after it are
    kept; and the state is the notes state exactly when there is such a
    line. *)
Theorem X7_notes_start_at_the_first_non_blank_line :
  forall (st : Locals) (delim : string) (chunk : list string),
    is_delimiter (Str.rstrip delim) = true ->
    Forall (fun raw => is_free_text (Str.rstrip raw) = true) chunk ->
    run st (delim :: chunk)
    = Ok (mkLocals (self_header st)
            (self_sections st
             ++ [set_notes (skip_blank (map Str.rstrip chunk)) new_Section])
            match skip_blank (map Str.rstrip chunk) with
            | [] => SECTION
            | _ :: _ => NOTES
            end
            (entry st)).
Proof.
  intros st delim chunk D F. cbn [run].
  rewrite (process_line_delimiter _ _ D). cbn [bind].
  now rewrite (run_section chunk (start_section st) (self_sections st)
                 new_Section eq_refl eq_refl F).
Qed.

(** Two blank lines, a note, a blank line and a second note. *)
Lemma X7_witness :
  run (init_locals new_Whence)
      ["-----------"; ""; "  "; "first"; ""; "second  "]
  = Ok (mkLocals [] [set_notes ["first"; ""; "second"] new_Section]
                 NOTES None).
Proof.
  refine (X7_notes_start_at_the_first_non_blank_line
            (init_locals new_Whence) "-----------"
            [""; "  "; "first"; ""; "second  "] eq_refl _).
  repeat constructor.
Defined.

(** ** Entries and their fields *)

Section EntryLines.

Lemma rstrip_by_keep p a c b :
  p c = false ->
  Str.rstrip_by p (a +++ String c b) = a +++ String c (Str.rstrip_by p b).
Proof.
  intros P. induction a as [|x a' IH].
  - change ("" +++ String c b) with (String c b).
    change ("" +++ String c (Str.rstrip_by p b))
      with (String c (Str.rstrip_by p b)).
    cbn [Str.rstrip_by]. rewrite P. now destruct (Str.rstrip_by p b).
  - change (String x a' +++ String c b) with (String x (a' +++ String c b)).
    cbn [Str.rstrip_by]. rewrite IH. now destruct a'.
Qed.

Lemma rstrip_by_nil p s : Str.rstrip_by p s = "" -> all_chars p s = true.
Proof.
  induction s as [|c r IH]; [reflexivity|].
  cbn [Str.rstrip_by all_chars].
  destruct (Str.rstrip_by p r); [|discriminate].
  destruct (p c); [|discriminate]. intros _. now rewrite IH.
Qed.

Lemma lstrip_by_all p s : all_chars p s = true -> Str.lstrip_by p s = "".
Proof.
  induction s as [|c r IH]; [reflexivity|].
  cbn [Str.lstrip_by all_chars]. intros H.
  apply andb_prop in H as [-> H]. now apply IH.
Qed.

Lemma rstrip_by_idem p s :
  Str.rstrip_by p (Str.rstrip_by p s) = Str.rstrip_by p s.
Proof.
  induction s as [|c r IH]; [reflexivity|].
  cbn [Str.rstrip_by].
  destruct (Str.rstrip_by p r) as [|y r'] eqn:R.
  - destruct (p c) eqn:P; [reflexivity|].
    cbn [Str.rstrip_by]. now rewrite P.
  - cbn [Str.rstrip_by] in *. rewrite IH. reflexivity.
Qed.

Lemma lstrip_by_skip p c x :
  p c = true -> Str.lstrip_by p (String c x) = Str.lstrip_by p x.
Proof. intros P. cbn [Str.lstrip_by]. now rewrite P. Qed.

Lemma lstrip_by_stop p c x :
  p c = false -> Str.lstrip_by p (String c x) = String c x.
Proof. intros P. cbn [Str.lstrip_by]. now rewrite P. Qed.

Lemma lstrip_rstrip_comm p s :
  Str.lstrip_by p (Str.rstrip_by p s) = Str.rstrip_by p (Str.lstrip_by p s).
Proof.
  induction s as [|c r IH]; [reflexivity|].
  destruct (p c) eqn:P.
  - rewrite (lstrip_by_skip p c r P). cbn [Str.rstrip_by].
    destruct (Str.rstrip_by p r) as [|y r'] eqn:R.
    + rewrite P. exact IH.
    + now rewrite (lstrip_by_skip p c _ P).
  - rewrite (lstrip_by_stop p c r P). cbn [Str.rstrip_by].
    destruct (Str.rstrip_by p r) as [|y r'] eqn:R.
    + rewrite P. now rewrite (lstrip_by_stop p c _ P).
    + now rewrite (lstrip_by_stop p c _ P).
Qed.

(** The white space at the end of a line is not part of its value. *)
Lemma strip_rstrip s : Str.strip (Str.rstrip s) = Str.strip s.
Proof.
  unfold Str.strip, Str.rstrip, Str.strip_by.
  now rewrite lstrip_rstrip_comm, rstrip_by_idem.
Qed.

Lemma rstrip_key_line key rest :
  Str.rstrip (key +++ ":" +++ rest) = key +++ ":" +++ Str.rstrip rest.
Proof.
  unfold Str.rstrip.
  change (key +++ ":" +++ rest) with (key +++ String ":" rest).
  now rewrite rstrip_by_keep.
Qed.

Lemma update_at_app {A : Type} (f : A -> A) (l : list A) x t :
  update_at (List.length l) f (l ++ x :: t) = l ++ f x :: t.
Proof. induction l as [|y q IH]; simpl; [reflexivity | now rewrite IH]. Qed.

(** The entry that [entry] refers to, as the last entry of a section. *)
Lemma modify_entry_at st ss s t es e f :
  self_sections st = ss ++ s :: t -> entries s = es ++ [e] ->
  entry st = Some (List.length ss, List.length es) ->
  modify_entry f st
  = Ok (mkLocals (self_header st)
          (ss ++ set_entries (es ++ [f e]) s :: t)
          (whence_type st) (entry st)).
Proof.
  intros S E P. unfold modify_entry. rewrite P, S, update_at_app, E.
  now rewrite update_at_app.
Qed.

Lemma field_setter_keys key f :
  field_setter key = Some f ->
  (key = "Version" /\ f = set_version) \/ (key = "Source" /\ f = append_source)
  \/ (key = "Info" /\ f = set_info) \/ (key = "Origin" /\ f = set_origin).
Proof.
  unfold field_setter. key_cases; intros H; try discriminate;
    injection H as <-; tauto.
Qed.

Lemma process_field_line st key f rest :
  field_setter key = Some f ->
  process_line st (Str.rstrip (key +++ ":" +++ rest))
  = modify_entry (f (Str.strip rest)) st.
Proof.
  intros H. rewrite rstrip_key_line.
  apply field_setter_keys in H
    as [[-> ->] | [[-> ->] | [[-> ->] | [-> ->]]]];
    rewrite process_line_keyed by reflexivity;
    rewrite strip_rstrip; reflexivity.
Qed.

Lemma process_file_line st ss s key rest :
  key = "File" \/ key = "RawFile" -> self_sections st = ss ++ [s] ->
  process_line st (Str.rstrip (key +++ ":" +++ rest))
  = Ok (mkLocals (self_header st)
          (ss ++ [set_entries
                    (entries s ++ [new_Entry key (Str.strip rest) ""]) s])
          (whence_type st)
          (Some (List.length ss, List.length (entries s)))).
Proof.
  intros K E. rewrite rstrip_key_line.
  rewrite process_line_keyed by (destruct K as [-> | ->]; reflexivity).
  rewrite strip_rstrip.
  assert (recognizer key (Str.strip rest)
            (key +++ ":" +++ Str.rstrip rest) st
          = Some (on_file key (Str.strip rest) st)) as ->
      by (destruct K as [-> | ->]; reflexivity).
  unfold on_file. now apply append_entry_snoc.
Qed.

Lemma run_sources vs st ss s es e :
  self_sections st = ss ++ [s] -> entries s = es ++ [e] ->
  entry st = Some (List.length ss, List.length es) ->
  run st (map (fun v => "Source:" +++ v) vs)
  = Ok (mkLocals (self_header st)
          (ss ++ [set_entries
                    (es ++ [mkEntry (type e) (path e) (target e)
                              (sources e ++ map Str.strip vs)
                              (version e) (info e) (origin e)]) s])
          (whence_type st) (entry st)).
Proof.
  revert st s e; induction vs as [|v vs IH]; intros st s e S E P.
  - simpl. rewrite app_nil_r.
    replace (mkEntry (type e) (path e) (target e) (sources e) (version e)
               (info e) (origin e)) with e by now destruct e.
    rewrite <- E.
    replace (set_entries (entries s) s) with s by now destruct s.
    rewrite <- S. now destruct st.
  - cbn [map run].
    change ("Source:" +++ v) with ("Source" +++ ":" +++ v).
    rewrite (process_field_line st "Source" append_source v eq_refl).
    rewrite (modify_entry_at st ss s [] es e _ S E P). cbn [bind].
    rewrite (IH (mkLocals (self_header st)
                   (ss ++ [set_entries
                             (es ++ [append_source (Str.strip v) e]) s])
                   (whence_type st) (entry st))
                (set_entries (es ++ [append_source (Str.strip v) e]) s)
                (append_source (Str.strip v) e) eq_refl eq_refl P).
    simpl. now rewrite <- app_assoc.
Qed.

End EntryLines.

(** X8. A [File:] or [RawFile:] line followed by [Source:] lines gives the
    current section one more entry, of the type of the key, whose path is
    the trimmed value, whose sources are the trimmed values of the source
    lines in the order of the lines, and whose other fields are empty; the
    entry is the current one. *)
Theorem X8_file_line_and_its_sources :
  forall (st : Locals) (ss : list DriverSection) (s : DriverSection)
         (key rest : string) (vs : list string),
    key = "File" \/ key = "RawFile" ->
    self_sections st = ss ++ [s] ->
    run st ((key +++ ":" +++ rest) :: map (fun v => "Source:" +++ v) vs)
    = Ok (mkLocals (self_header st)
            (ss ++ [set_entries
                      (entries s
                       ++ [mkEntry key (Str.strip rest) ""
                             (map Str.strip vs) "" "" ""]) s])
            (whence_type st)
            (Some (List.length ss, List.length (entries s)))).
Proof.
  intros st ss s key rest vs K E. cbn [run].
  rewrite (process_file_line st ss s key rest K E). cbn [bind].
  now rewrite (run_sources vs
                 (mkLocals (self_header st)
                    (ss ++ [set_entries
                              (entries s
                               ++ [new_Entry key (Str.strip rest) ""]) s])
                    (whence_type st)
                    (Some (List.length ss, List.length (entries s))))
                 ss
                 (set_entries
                    (entries s ++ [new_Entry key (Str.strip rest) ""]) s)
                 (entries s) (new_Entry key (Str.strip rest) "")
                 eq_refl eq_refl eq_refl).
Qed.

(** A raw file with two sources, after a file, lines with white space at
    their ends. *)
Lemma X8_witness :
  run (mkLocals [] [set_entries [new_Entry "File" "a" ""] new_Section]
                SECTION (Some (0, 0)))
      ["RawFile: b.bin  "; "Source:  b.c "; "Source: b.h"]
  = Ok (mkLocals []
          [set_entries
             [new_Entry "File" "a" "";
              mkEntry "RawFile" "b.bin" "" ["b.c"; "b.h"] "" "" ""]
             new_Section]
          SECTION (Some (0, 1))).
Proof.
  exact (X8_file_line_and_its_sources
           (mkLocals [] [set_entries [new_Entry "File" "a" ""] new_Section]
                     SECTION (Some (0, 0)))
           [] (set_entries [new_Entry "File" "a" ""] new_Section)
           "RawFile" " b.bin  " ["  b.c "; " b.h"]
           (or_intror eq_refl) eq_refl).
Defined.



(** ** The script *)

Section Script.

Lemma load_whence_ids self lines doc :
  load_whence self lines = Ok doc ->
  section_ids (sections doc) = map chunk_ids (snd (section_lines lines)).
Proof.
  intros H. destruct (load_whence_ok self lines doc H) as (st & R & _ & M).
  apply mapM_strip_section_ok, stripped_sections_ids in M.
  apply run_ids in R. simpl in R. now rewrite M, R.
Qed.

Lemma ids_nil_iff s chunk :
  map entry_id (entries s) = chunk_ids chunk ->
  (entries s = [] <-> entry_lines chunk = []).
Proof.
  unfold chunk_ids. intros H.
  destruct (entries s), (entry_lines chunk); simpl in H; try discriminate;
    split; intros; (reflexivity || discriminate).
Qed.

Lemma sections_without_entries ss chunks :
  section_ids ss = map chunk_ids chunks ->
  (Exists (fun chunk => entry_lines chunk = []) chunks ->
   Exists (fun s => entries s = []) ss)
  /\ (Forall (fun chunk => entry_lines chunk <> []) chunks ->
      Forall (fun s => entries s <> []) ss).
Proof.
  unfold section_ids. intros H. apply map_eq_Forall2 in H.
  induction H as [|s chunk r q Hs _ [IH1 IH2]].
  - split; intros X; [inversion X | constructor].
  - apply ids_nil_iff in Hs. split; intros X; inversion X; subst.
    + left. now apply Hs.
    + right. now apply IH1.
    + constructor; [|now apply IH2]. intros E. apply Hs in E. contradiction.
Qed.

Lemma save_yaml_raise w :
  Exists (fun s => entries s = []) (sections w) ->
  save_yaml w true = Raise (KeyError "entries").
Proof.
  intros E. unfold save_yaml, asdict.
  cbn [getitem String.eqb Ascii.eqb Bool.eqb bind as_list].
  now rewrite (mapM_prune_section_raise _ E).
Qed.

Lemma save_yaml_ok w :
  Forall (fun s => entries s <> []) (sections w) ->
  save_yaml w true
  = Ok [("header", strs (header w));
        ("sections", VList (map pruned_Section (sections w)))].
Proof.
  intros F. unfold save_yaml, asdict.
  cbn [getitem String.eqb Ascii.eqb Bool.eqb bind as_list].
  now rewrite (mapM_prune_section_ok _ F).
Qed.

Lemma entries_dichotomy ss :
  Forall (fun s => entries s <> []) ss
  \/ Exists (fun s => entries s = []) ss.
Proof.
  induction ss as [|s r [IH|IH]].
  - left; constructor.
  - destruct (entries s) eqn:E.
    + right; now left.
    + left; constructor; [congruence | exact IH].
  - right; now right.
Qed.

End Script.



(** ** The dump loses nothing *)

Section ReadBack.

Lemma getitem_absent k d :
  ~ In k (map fst d) -> getitem k d = Raise (KeyError k).
Proof.
  induction d as [|[k0 v0] r IH]; simpl; [reflexivity|].
  intros N. destruct (String.eqb_spec k0 k) as [E|_]; [tauto|].
  apply IH. tauto.
Qed.

Lemma remove_empty_keys_absent k d :
  ~ In k (map fst d) -> ~ In k (map fst (remove_empty_keys d)).
Proof.
  unfold remove_empty_keys. intros N I. apply N.
  apply in_map_iff in I as (kv & E & I). apply filter_In in I as [I _].
  apply in_map_iff. eauto.
Qed.

(** Deleting the keys of empty values does not change what is read. *)
Lemma field_remove_empty {A : Type} (dec : value -> A) k d :
  (forall v, truthy v = false -> dec v = dec (VStr "")) ->
  NoDup (map fst d) ->
  dec (field k (remove_empty_keys d)) = dec (field k d).
Proof.
  intros F. induction d as [|[k0 v0] r IH]; [reflexivity|].
  intros N. inversion N as [|? ? NI N']; subst.
  change (remove_empty_keys ((k0, v0) :: r))
    with (if truthy v0 then (k0, v0) :: remove_empty_keys r
          else remove_empty_keys r).
  unfold field in *.
  destruct (truthy v0) eqn:T; cbn [getitem].
  - destruct (String.eqb_spec k0 k); [reflexivity | now apply IH].
  - destruct (String.eqb_spec k0 k) as [->|_]; [|now apply IH].
    rewrite (F v0 T).
    now rewrite (getitem_absent k _ (remove_empty_keys_absent k r NI)).
Qed.

Lemma str_of_falsy v : truthy v = false -> str_of v = str_of (VStr "").
Proof. now destruct v as [[|? ?]|[|? ?]|[|? ?]]. Qed.

Lemma strs_of_falsy v : truthy v = false -> strs_of v = strs_of (VStr "").
Proof. now destruct v as [[|? ?]|[|? ?]|[|? ?]]. Qed.

Lemma read_entries_falsy v :
  truthy v = false -> read_entries v = read_entries (VStr "").
Proof. now destruct v as [[|? ?]|[|? ?]|[|? ?]]. Qed.

Lemma strs_of_strs l : strs_of (strs l) = l.
Proof.
  unfold strs, strs_of. rewrite map_map. simpl. apply map_id.
Qed.

Lemma getitem_setitem_same k v d : getitem k (setitem k v d) = Ok v.
Proof.
  induction d as [|[k0 v0] r IH]; simpl.
  - now rewrite String.eqb_refl.
  - destruct (String.eqb_spec k0 k) as [->|N]; simpl.
    + now rewrite String.eqb_refl.
    + destruct (String.eqb_spec k0 k); [contradiction | exact IH].
Qed.

Lemma getitem_setitem_other k k' v d :
  k' <> k -> getitem k' (setitem k v d) = getitem k' d.
Proof.
  intros N. induction d as [|[k0 v0] r IH]; simpl.
  - destruct (String.eqb_spec k k'); [congruence | reflexivity].
  - destruct (String.eqb_spec k0 k) as [->|N0]; simpl.
    + destruct (String.eqb_spec k k'); [congruence | reflexivity].
    + now rewrite IH.
Qed.

Lemma field_setitem_other k k' v d :
  k' <> k -> field k' (setitem k v d) = field k' d.
Proof. intros N. unfold field. now rewrite getitem_setitem_other. Qed.

Lemma asdict_Entry_keys e : NoDup (map fst (asdict_Entry e)).
Proof.
  simpl. repeat (constructor; [simpl; intuition discriminate|]). constructor.
Qed.

Lemma asdict_Section_keys s : NoDup (map fst (asdict_Section s)).
Proof.
  simpl. repeat (constructor; [simpl; intuition discriminate|]). constructor.
Qed.

Lemma read_Entry_asdict e : read_Entry (asdict_Entry e) = e.
Proof.
  destruct e. unfold read_Entry, field, asdict_Entry. cbn.
  now rewrite map_map, map_id.
Qed.

Lemma read_Entry_pruned e :
  read_Entry (dict_of (pruned_Entry e)) = e.
Proof.
  unfold pruned_Entry. cbn [dict_of].
  rewrite <- (read_Entry_asdict e) at 2. unfold read_Entry.
  pose proof (asdict_Entry_keys e) as N.
  f_equal; apply field_remove_empty;
    auto using str_of_falsy, strs_of_falsy.
Qed.

Lemma read_entries_asdict es :
  read_entries (VList (map (fun e => VDict (asdict_Entry e)) es)) = es.
Proof.
  unfold read_entries. rewrite map_map. cbn [dict_of].
  rewrite <- (map_id es) at 2. apply map_ext. apply read_Entry_asdict.
Qed.

Lemma read_entries_pruned es :
  read_entries (VList (map pruned_Entry es)) = es.
Proof.
  unfold read_entries. rewrite map_map.
  rewrite <- (map_id es) at 2. apply map_ext. apply read_Entry_pruned.
Qed.

Lemma read_Section_asdict s : read_Section (asdict_Section s) = s.
Proof.
  destruct s as [d m de l lf n es].
  unfold read_Section.
  replace (read_entries (field "entries" (asdict_Section
             (mkSection d m de l lf n es)))) with es
    by (symmetry; apply read_entries_asdict).
  unfold field, asdict_Section. cbn.
  now rewrite !map_map, !map_id.
Qed.

Lemma read_Section_pruned s :
  read_Section (dict_of (pruned_Section s)) = s.
Proof.
  unfold pruned_Section. cbn [dict_of].
  rewrite <- (read_Section_asdict s) at 3. unfold read_Section.
  pose proof (asdict_Section_keys s) as N.
  f_equal;
    try (rewrite field_setitem_other by discriminate;
         apply field_remove_empty;
         auto using str_of_falsy, strs_of_falsy).
  unfold field at 1. rewrite getitem_setitem_same.
  rewrite read_entries_pruned. symmetry.
  change (field "entries" (asdict_Section s))
    with (VList (map (fun e => VDict (asdict_Entry e)) (entries s))).
  apply read_entries_asdict.
Qed.

Lemma read_Whence_asdict w : read_Whence (asdict w) = w.
Proof.
  destruct w as [h ss]. unfold read_Whence, field, asdict. cbn.
  rewrite !map_map. cbn. rewrite map_id. f_equal.
  rewrite <- (map_id ss) at 2. apply map_ext. apply read_Section_asdict.
Qed.

Lemma read_Whence_pruned w :
  read_Whence [("header", strs (header w));
               ("sections", VList (map pruned_Section (sections w)))]
  = w.
Proof.
  destruct w as [h ss]. unfold read_Whence, field. cbn.
  rewrite !map_map. cbn. rewrite map_id. f_equal.
  rewrite <- (map_id ss) at 2. apply map_ext. apply read_Section_pruned.
Qed.

Lemma save_yaml_read w r d : save_yaml w r = Ok d -> read_Whence d = w.
Proof.
  destruct r.
  - destruct (entries_dichotomy (sections w)) as [F|X].
    + rewrite (save_yaml_ok w F). intros H; injection H as <-.
      apply read_Whence_pruned.
    + rewrite (save_yaml_raise w X). discriminate.
  - intros H; injection H as <-. apply read_Whence_asdict.
Qed.

End ReadBack.

(** X11. The dictionary that [save_yaml] dumps, with or without
    [remove_empty], determines the document: every field is read back from
    it, a deleted key standing for the empty string or the empty list, and
    two documents with the same dump are the same document. *)
Theorem X11_dump_determines_the_document :
  forall (w1 w2 : Whence) (r1 r2 : bool) (d : dict),
    save_yaml w1 r1 = Ok d ->
    read_Whence d = w1
    /\ (save_yaml w2 r2 = Ok d -> w1 = w2).
Proof.
  intros w1 w2 r1 r2 d H1.
  pose proof (save_yaml_read w1 r1 d H1) as E1.
  split; [exact E1|].
  intros H2. apply save_yaml_read in H2. congruence.
Qed.

(** A section with a driver, a licence and one link, dumped with and
    without [remove_empty]. *)
Lemma X11_witness :
  let w := mkWhence ["Title"]
             [mkSection "d" "d" "" ["GPL"] "" []
                [new_Entry "Link" "a" "b"]] in
  exists d1 d2,
    save_yaml w true = Ok d1 /\ save_yaml w false = Ok d2
    /\ read_Whence d1 = w /\ read_Whence d2 = w.
Proof.
  intros w.
  destruct (save_yaml w true) as [e|d1] eqn:S1;
    [vm_compute in S1; discriminate S1|].
  destruct (save_yaml w false) as [e|d2] eqn:S2;
    [vm_compute in S2; discriminate S2|].
  exists d1, d2. split; [reflexivity|]. split; [reflexivity|].
  split.
  - exact (proj1 (X11_dump_determines_the_document w w true true d1 S1)).
  - exact (proj1 (X11_dump_determines_the_document w w false false d2 S2)).
Defined.

(** ** Indented lines *)

Section Indented.

Lemma is_recognized_first_char c a :
  is_recognized (String c a) = true -> Str.isspace c = false.
Proof.
  unfold is_recognized, recognized_keys. cbn [existsb String.eqb].
  intros H.
  repeat match type of H with
    | context [Ascii.eqb c ?d] =>
        destruct (Ascii.eqb_spec c d) as [->|_]; [reflexivity|];
        cbn [andb orb] in H
    end.
  discriminate H.
Qed.

Lemma split_key_first_char c line key val :
  split_key (String c line) = Some (key, val) ->
  key = "" \/ exists a, key = String c a.
Proof.
  unfold split_key. rewrite find_split_eq.
  destruct (prefix ":" (String c line)).
  - intros H; injection H as <- _. now left.
  - destruct (Str.find_split ":" line) as [[a b]|]; [|discriminate].
    intros H; injection H as <- _. right. now exists a.
Qed.

End Indented.

(** X12. The keys are matched at the first column of the line: a line that
    begins with a white-space character is never a section delimiter and
    never a keyed line, whatever follows, and the loop handles it as free
    text of the current state. *)
Theorem X12_indented_line_is_free_text :
  forall (st : Locals) (c : ascii) (line : string),
    Str.isspace c = true ->
    is_free_text (String c line) = true
    /\ process_line st (String c line) = free_text (String c line) st.
Proof.
  intros st c line H.
  assert (is_delimiter (String c line) = false) as D.
  { unfold is_delimiter, Str.startswith. cbn [prefix].
    destruct (ascii_dec "-" c) as [<-|_]; [discriminate H | reflexivity]. }
  assert (key_test is_recognized (String c line) = false) as K.
  { unfold key_test, line_key. rewrite D.
    destruct (split_key (String c line)) as [[key val]|] eqn:S;
      [|reflexivity].
    apply split_key_first_char in S as [-> | [a ->]]; [reflexivity|].
    destruct (is_recognized (String c a)) eqn:R; [|reflexivity].
    apply is_recognized_first_char in R. congruence. }
  split.
  - unfold is_free_text. now rewrite D, K.
  - now apply process_line_free_text.
Qed.

(** An indented file line in the notes of a section: it is one more note,
    and no entry. *)
Lemma X12_witness :
  process_line (mkLocals [] [set_notes ["note"] new_Section] NOTES None)
               "  File: a.bin"
  = Ok (mkLocals [] [set_notes ["note"; "  File: a.bin"] new_Section]
                 NOTES None).
Proof.
  exact (proj2 (X12_indented_line_is_free_text
                  (mkLocals [] [set_notes ["note"] new_Section] NOTES None)
                  " " " File: a.bin" eq_refl)).
Defined.

(** ** The licence block of a section *)

Section LicenceBlock.

Lemma set_licence_same s : set_licence (licence s) s = s.
Proof. now destruct s. Qed.

Lemma run_licence chunk st ss s :
  whence_type st = LICENCE -> self_sections st = ss ++ [s] ->
  Forall (fun raw => is_free_text (Str.rstrip raw) = true) chunk ->
  run st chunk
  = Ok (mkLocals (self_header st)
          (ss ++ [set_licence (licence s ++ map Str.rstrip chunk) s])
          LICENCE (entry st)).
Proof.
  intros W E F. revert st s W E.
  induction F as [|raw rest FT _ IH]; intros st s W E.
  - simpl. rewrite app_nil_r, set_licence_same, <- E, <- W. now destruct st.
  - cbn [run map]. unfold is_free_text in FT.
    apply andb_prop in FT as [D R]. apply negb_true_iff in D, R.
    rewrite (process_licence_text st ss s _ W D R E). cbn [bind].
    rewrite (IH (mkLocals (self_header st)
                   (ss ++ [set_licence (licence s ++ [Str.rstrip raw]) s])
                   LICENCE (entry st))
                (set_licence (licence s ++ [Str.rstrip raw]) s)
                eq_refl eq_refl).
    simpl. now rewrite <- app_assoc.
Qed.

End LicenceBlock.

(** X13. The licence block.  After a [Licence:] or [License:] line, the
    free-text lines that follow, blank ones too, go to the licence list of
    the section and not to its notes, until the next keyed line or
    delimiter: the list grows by the trimmed value of the licence line, or
    ["--"], and by these lines in their order. *)
Theorem X13_free_text_after_a_licence_line_is_licence :
  forall (st : Locals) (ss : list DriverSection) (s : DriverSection)
         (key rest : string) (chunk : list string),
    key = "Licence" \/ key = "License" ->
    self_sections st = ss ++ [s] ->
    Forall (fun raw => is_free_text (Str.rstrip raw) = true) chunk ->
    run st ((key +++ ":" +++ rest) :: chunk)
    = Ok (mkLocals (self_header st)
            (ss ++ [set_licence_file
                      match Re.search (key +++ ":" +++ Str.rstrip rest) with
                      | Some g => g
                      | None => licence_file s
                      end
                      (set_licence
                         (licence s
                          ++ (if Str.nonempty (Str.strip rest)
                              then Str.strip rest else "--")
                             :: map Str.rstrip chunk) s)])
            LICENCE (entry st)).
Proof.
  intros st ss s key rest chunk K E F. cbn [run].
  rewrite rstrip_key_line, (process_licence_line st ss s key _ K E).
  rewrite strip_rstrip. cbn [bind].
  match goal with
  | |- context [run ?st0 chunk] =>
      rewrite (run_licence chunk st0 ss _ eq_refl eq_refl F)
  end.
  simpl. now rewrite <- app_assoc.
Qed.

(** A licence line with a file name, a blank line and a line of text. *)
Lemma X13_witness :
  run (mkLocals [] [set_notes ["note"] new_Section] NOTES None)
      ["Licence: see LICENCE.x for details  "; ""; "More text."]
  = Ok (mkLocals []
          [mkSection "" "" ""
             ["see LICENCE.x for details"; ""; "More text."]
             "LICENCE.x" ["note"] []]
          LICENCE None).
Proof.
  refine (X13_free_text_after_a_licence_line_is_licence
            (mkLocals [] [set_notes ["note"] new_Section] NOTES None)
            [] (set_notes ["note"] new_Section)
            "Licence" " see LICENCE.x for details  " [""; "More text."]
            (or_introl eq_refl) eq_refl _).
  repeat constructor.
Defined.

(** ** The order of the keys *)

Section KeyOrder.

Lemma remove_empty_keys_order d :
  subsequence (map fst (remove_empty_keys d)) (map fst d).
Proof.
  unfold remove_empty_keys.
  induction d as [|[k v] r IH]; simpl; [constructor|].
  destruct (truthy v); simpl; now constructor.
Qed.

Lemma setitem_keys k v d :
  In k (map fst d) -> map fst (setitem k v d) = map fst d.
Proof.
  induction d as [|[k0 v0] r IH]; simpl; [tauto|].
  destruct (String.eqb_spec k0 k) as [->|N]; simpl; [reflexivity|].
  intros [E|I]; [contradiction | now rewrite IH].
Qed.

Lemma pruned_Entry_order e :
  subsequence (map fst (dict_of (pruned_Entry e))) Entry_fields.
Proof. apply (remove_empty_keys_order (asdict_Entry e)). Qed.

Lemma pruned_Section_order s :
  entries s <> [] ->
  subsequence (map fst (dict_of (pruned_Section s))) Section_fields.
Proof.
  intros N. unfold pruned_Section. cbn [dict_of].
  rewrite setitem_keys; [apply (remove_empty_keys_order (asdict_Section s))|].
  apply in_map_iff.
  exists ("entries",
          VList (map (fun e => VDict (asdict_Entry e)) (entries s))).
  split; [reflexivity|]. apply filter_In. split.
  - simpl. tauto.
  - simpl. now destruct (entries s).
Qed.

End KeyOrder.

(** X14. Pruning never reorders.  In the dictionary that [save_yaml] dumps
    with [remove_empty], the keys are [header] and [sections]; the keys of
    every section mapping are fields of [Section] in the order of their
    declaration, [entries] among them; and the keys of every entry mapping
    are fields of [Entry] in the order of their declaration. *)
Theorem X14_keys_keep_the_declaration_order :
  forall (w : Whence) (d : dict),
    save_yaml w true = Ok d ->
    map fst d = ["header"; "sections"]
    /\ getitem "sections" d = Ok (VList (map pruned_Section (sections w)))
    /\ Forall (fun s =>
                 subsequence (map fst (dict_of (pruned_Section s)))
                             Section_fields
                 /\ getitem "entries" (dict_of (pruned_Section s))
                    = Ok (VList (map pruned_Entry (entries s)))
                 /\ Forall (fun e =>
                              subsequence (map fst (dict_of (pruned_Entry e)))
                                          Entry_fields)
                           (entries s))
              (sections w).
Proof.
  intros w d H.
  destruct (entries_dichotomy (sections w)) as [F|X];
    [|rewrite (save_yaml_raise w X) in H; discriminate H].
  rewrite (save_yaml_ok w F) in H. injection H as <-.
  split; [reflexivity|]. split; [reflexivity|].
  clear - F. induction F as [|s r N _ IH]; constructor; [|exact IH].
  split; [now apply pruned_Section_order|]. split.
  - unfold pruned_Section. cbn [dict_of]. apply getitem_setitem_same.
  - apply Forall_forall. intros e _. apply pruned_Entry_order.
Qed.

(** A section with a module and one file that has a version: the keys that
    stay are in the order of the fields. *)
Lemma X14_witness :
  let w := mkWhence []
             [mkSection "" "m" "" [] "" ["n"]
                [mkEntry "File" "a" "" [] "1" "" ""]] in
  let d := [("header", VList []);
            ("sections",
             VList [VDict [("module", VStr "m"); ("notes", strs ["n"]);
                           ("entries",
                            VList [VDict [("type", VStr "File");
                                          ("path", VStr "a");
                                          ("version", VStr "1")]])]])] in
  save_yaml w true = Ok d /\ map fst d = ["header"; "sections"].
Proof.
  intros w d.
  assert (save_yaml w true = Ok d) as H by (vm_compute; reflexivity).
  split; [exact H|].
  exact (proj1 (X14_keys_keep_the_declaration_order w d H)).
Defined.
